(** * Checking conformances to invertible protocols

    A shallow embedding of [lib/Sema/TypeCheckInvertible.cpp]: the check
    that a struct, enum or class may conform to one of the invertible
    protocols [Copyable] and [Escapable], together with the generic walk
    over the storage of a nominal type ([StorageVisitor::visit]).

    The diagnostic engine is the only state the code writes; it is threaded
    explicitly.  A failed [assert] aborts the run. *)

From stdpp Require Import base decidable countable gmap strings list.

(** ** Protocol kinds *)

Inductive InvertibleProtocolKind : Set := Copyable | Escapable.

Inductive KnownProtocolKind : Set := KP_Copyable | KP_Escapable.

Definition getKnownProtocolKind (ip : InvertibleProtocolKind) : KnownProtocolKind :=
  match ip with
  | Copyable => KP_Copyable
  | Escapable => KP_Escapable
  end.

(** The name table of the known protocols is declared outside this file;
    the two entries are the names the inverse spellings [~Copyable] and
    [~Escapable] are built from. *)
Definition getProtocolName (kp : KnownProtocolKind) : string :=
  match kp with
  | KP_Copyable => "Copyable"
  | KP_Escapable => "Escapable"
  end.

#[global] Instance InvertibleProtocolKind_eq_dec : EqDecision InvertibleProtocolKind.
Proof. solve_decision. Defined.

#[global] Instance KnownProtocolKind_eq_dec : EqDecision KnownProtocolKind.
Proof. solve_decision. Defined.

Definition ipk_to_bool (ip : InvertibleProtocolKind) : bool :=
  match ip with Copyable => false | Escapable => true end.

Definition ipk_of_bool (b : bool) : InvertibleProtocolKind :=
  if b then Escapable else Copyable.

#[global] Instance InvertibleProtocolKind_countable : Countable InvertibleProtocolKind.
Proof.
  apply (inj_countable' ipk_to_bool ipk_of_bool).
  intros []; reflexivity.
Defined.

(** [InvertibleProtocolSet]: a set of invertible protocol kinds. *)
Abbreviation InvertibleProtocolSet := (gset InvertibleProtocolKind).

Definition contains (s : InvertibleProtocolSet) (ip : InvertibleProtocolKind) : bool :=
  bool_decide (ip ∈ s).

(** ** Source locations, types and declarations *)

(** A [SourceLoc] is valid when it is not the null location. *)
Definition SourceLoc := N.

Definition isValid (loc : SourceLoc) : bool := negb (N.eqb loc 0).

Definition ModuleDecl := string.

Record GenericTypeParamDecl := {
  gp_name : string;
  gp_getModuleContext : ModuleDecl
}.

(** What [ArchetypeType::getInterfaceType] can give: a generic parameter
    type (whose declaration may be missing) or some other dependent type. *)
Inductive InterfaceType :=
| GenericTypeParamType (decl : option GenericTypeParamDecl)
| DependentMemberType.

(** The nominal a type refers to, as far as the notes need it: its name and
    its location in source, which is invalid when the declaration was not
    parsed from source. *)
Record NominalRef := {
  nr_name : string;
  nr_getLoc : SourceLoc
}.

(** The part of a type's structure the checker looks at: whether it is an
    archetype ([getAs<ArchetypeType>]) and which nominal it names, if any
    ([getAnyNominal]). *)
Inductive TypeStructure :=
| ArchetypeType (interfaceType : InterfaceType)
| NominalType (decl : NominalRef)
| StructuralType.

(** A resolved type with the queries the type system answers about it. *)
Record Ty := {
  ty_name : string;
  hasError : bool;
  isNoncopyable : bool;
  isEscapable : bool;
  ty_structure : TypeStructure
}.

Record VarDecl := {
  var_name : string;
  getValueInterfaceType : Ty
}.

(** An enum element; [getArgumentInterfaceType] is [None] when the element
    has no associated values. *)
Record EnumElementDecl := {
  elt_name : string;
  getArgumentInterfaceType : option Ty
}.

Definition hasAssociatedValues (element : EnumElementDecl) : bool :=
  match getArgumentInterfaceType element with
  | Some _ => true
  | None => false
  end.

Record EnumCaseDecl := {
  getElements : list EnumElementDecl
}.

Record DestructorDecl := {
  deinit_loc : SourceLoc
}.

(** [ValueDecl] is the common base of stored properties and enum elements. *)
Inductive ValueDecl :=
| OfVarDecl (property : VarDecl)
| OfEnumElementDecl (element : EnumElementDecl).

Definition getName (storage : ValueDecl) : string :=
  match storage with
  | OfVarDecl property => var_name property
  | OfEnumElementDecl element => elt_name element
  end.

Inductive Feature : Set := MoveOnlyClasses.

Record LangOptions := {
  hasFeature : Feature -> bool
}.

Record ASTContext := {
  LangOpts : LangOptions
}.

Inductive DeclKind : Set :=
| StructDecl | EnumDecl | ClassDecl | ProtocolDeclKind | BuiltinTupleDecl.

#[global] Instance DeclKind_eq_dec : EqDecision DeclKind.
Proof. solve_decision. Defined.

(** One entry of an inheritance clause, with the location of its end. *)
Record InheritedEntry := {
  ie_text : string;
  ie_endLoc : SourceLoc
}.

Record DeclAttributes := {
  hasMoveOnlyAttr : bool;
  hasNonEscapableAttr : bool
}.

(** A nominal type declaration.  [inheritedInverses] is what
    [getDirectlyInheritedNominalTypeDecls], which is declared outside this
    file, reports through its [inverses] parameter: the inverses written in
    the inheritance clause.  [getValueTypeDestructor] is the deinit of a
    struct or an enum, if it has one. *)
Record NominalTypeDecl := {
  nom_name : string;
  nom_kind : DeclKind;
  getASTContext : ASTContext;
  getParentModule : ModuleDecl;
  getInherited : list InheritedEntry;
  inheritedInverses : InvertibleProtocolSet;
  getBracesStart : SourceLoc;
  getAttrs : DeclAttributes;
  getStoredProperties : list VarDecl;
  getAllCases : list EnumCaseDecl;
  getValueTypeDestructor : option DestructorDecl
}.

Definition isa (k : DeclKind) (nominal : NominalTypeDecl) : bool :=
  bool_decide (nom_kind nominal = k).

(** [InheritedTypes::getEndLoc]: the end of the last entry. *)
Definition getEndLoc (inherited : list InheritedEntry) : SourceLoc :=
  match last inherited with
  | Some entry => ie_endLoc entry
  | None => 0%N
  end.

(** A declaration context: the nominal it extends or declares and the
    substitution of interface types into its generic environment. *)
Record DeclContext := {
  getSelfNominalTypeDecl : NominalTypeDecl;
  mapTypeIntoContext : Ty -> Ty
}.

Definition Requirement := string.

Record ProtocolDecl := {
  proto_name : string;
  proto_known : option KnownProtocolKind
}.

Definition isSpecificProtocol (proto : ProtocolDecl) (kp : KnownProtocolKind) : bool :=
  bool_decide (proto_known proto = Some kp).

Record NormalProtocolConformance := {
  normal_getProtocol : ProtocolDecl;
  getLoc : SourceLoc;
  getConditionalRequirements : list Requirement
}.

(** A conformance is a normal conformance or one of the other kinds
    (specialized, inherited, builtin), for which [dyn_cast] gives null. *)
Inductive ProtocolConformance :=
| Normal (normalConf : NormalProtocolConformance)
| NotNormal (proto : ProtocolDecl).

Definition getProtocol (conformance : ProtocolConformance) : ProtocolDecl :=
  match conformance with
  | Normal normalConf => normal_getProtocol normalConf
  | NotNormal proto => proto
  end.

Definition dyn_cast_Normal (conformance : ProtocolConformance)
  : option NormalProtocolConformance :=
  match conformance with
  | Normal normalConf => Some normalConf
  | NotNormal _ => None
  end.

(** ** Diagnostics *)

Inductive DiagID : Set :=
| add_inverse
| note_inverse_preventing_conformance
| note_inverse_preventing_conformance_explicit
| inverse_but_also_conforms
| copyable_illegal_deinit
| inverse_type_member_in_conforming_type.

#[global] Instance DiagID_eq_dec : EqDecision DiagID.
Proof. solve_decision. Defined.

Inductive DiagAnchor :=
| AtLoc (loc : SourceLoc)
| AtNominal (name : string)
| AtValueDecl (storage : ValueDecl)
| AtDestructor (deinit : DestructorDecl)
| AtGenericTypeParam (param : GenericTypeParamDecl).

Inductive DiagArg :=
| ArgType (type : Ty)
| ArgBool (b : bool)
| ArgIdentifier (name : string)
| ArgNominal (name : string)
| ArgString (text : string).

Inductive FixIt :=
| fixItInsert (loc : SourceLoc) (text : string)
| fixItInsertAfter (loc : SourceLoc) (text : string).

Record Diagnostic := {
  diag_anchor : DiagAnchor;
  diag_id : DiagID;
  diag_args : list DiagArg;
  diag_fixIts : list FixIt
}.

(** The diagnostics emitted so far, oldest first. *)
Definition DiagnosticEngine := list Diagnostic.

Definition mkDiagnostic (anchor : DiagAnchor) (id : DiagID) (args : list DiagArg)
  : Diagnostic :=
  {| diag_anchor := anchor; diag_id := id; diag_args := args; diag_fixIts := [] |}.

(** Attaching a fix-it to a diagnostic that is still in flight. *)
Definition withFixIt (diag : Diagnostic) (fixIt : FixIt) : Diagnostic :=
  {| diag_anchor := diag_anchor diag;
     diag_id := diag_id diag;
     diag_args := diag_args diag;
     diag_fixIts := diag_fixIts diag ++ [fixIt] |}.

(** ** Runs of the checker

    A computation takes the state it may write and either returns a value
    with the new state or stops at a failed assertion. *)

Inductive Outcome (S A : Type) :=
| Returned (a : A) (s : S)
| AssertionFailed.

Arguments Returned {S A} a s.
Arguments AssertionFailed {S A}.

Definition Sema (S A : Type) : Type := S -> Outcome S A.

#[global] Instance Sema_ret {S} : MRet (Sema S) :=
  fun A a s => Returned a s.

#[global] Instance Sema_bind {S} : MBind (Sema S) :=
  fun A B k m s =>
    match m s with
    | Returned a s' => k a s'
    | AssertionFailed => AssertionFailed
    end.

Definition assert_ {S} (cond : bool) : Sema S unit :=
  fun s => if cond then Returned tt s else AssertionFailed.

(** Emitting a diagnostic appends it to the engine. *)
Definition diagnose (diag : Diagnostic) : Sema DiagnosticEngine unit :=
  fun engine => Returned tt (engine ++ [diag]).

(** ** Diagnostic utilities *)

(** Adds the fix-it that makes [nominal] conform to [proto], or to its
    inverse. *)
Definition addConformanceFixIt (nominal : NominalTypeDecl) (diag : Diagnostic)
    (proto : KnownProtocolKind) (inverse : bool) : Diagnostic :=
  match getInherited nominal with
  | [] =>
      let fixItLoc := getBracesStart nominal in
      let text := ": " in
      let text := if inverse then text +:+ "~" else text in
      let text := text +:+ getProtocolName proto in
      withFixIt diag (fixItInsert fixItLoc text)
  | _ :: _ =>
      let fixItLoc := getEndLoc (getInherited nominal) in
      let text := ", " in
      let text := if inverse then text +:+ "~" else text in
      let text := text +:+ getProtocolName proto in
      withFixIt diag (fixItInsertAfter fixItLoc text)
  end.

(** If there is not already an inverse applied to this type, suggest it. *)
Definition emitAdviceToApplyInverseAfter (ip : InvertibleProtocolKind)
    (canAddInverse : bool) (nominal : NominalTypeDecl)
  : Sema DiagnosticEngine unit :=
  let kp := getKnownProtocolKind ip in
  if canAddInverse then
    let diag := mkDiagnostic (AtNominal (nom_name nominal)) add_inverse
                  [ArgNominal (nom_name nominal); ArgString (getProtocolName kp)] in
    let diag := addConformanceFixIt nominal diag kp true in
    diagnose diag
  else mret tt.

(** Notes that help resolve a containment issue: the enclosing nominal
    holds a value of type [nonConformingTy], which does not conform. *)
Definition tryEmitContainmentFixits (enclosingNom : NominalTypeDecl)
    (canAddInverse : bool) (nonConformingTy : Ty) (ip : InvertibleProtocolKind)
  : Sema DiagnosticEngine unit :=
  let module := getParentModule enclosingNom in
  let kp := getKnownProtocolKind ip in
  emitAdviceToApplyInverseAfter ip canAddInverse enclosingNom ;;
  match ty_structure nonConformingTy with
  | ArchetypeType interfaceType =>
      match interfaceType with
      | GenericTypeParamType (Some genericParamTypeDecl) =>
          if bool_decide (gp_getModuleContext genericParamTypeDecl = module) then
            diagnose (mkDiagnostic (AtGenericTypeParam genericParamTypeDecl)
                        note_inverse_preventing_conformance
                        [ArgType nonConformingTy; ArgString (getProtocolName kp)])
          else mret tt
      | _ => mret tt
      end
  | NominalType nominal =>
      if isValid (nr_getLoc nominal) then
        diagnose (mkDiagnostic (AtLoc (nr_getLoc nominal))
                    note_inverse_preventing_conformance_explicit
                    [ArgNominal (nr_name nominal); ArgString (getProtocolName kp)])
      else mret tt
  | StructuralType => mret tt
  end.

(** ** Walking the storage of a nominal type *)

(** The two callbacks of a storage visitor; each returns [true] iff the
    walk over the nominal should stop. *)
Class StorageVisitor (V S : Type) := {
  visitProperty : V -> VarDecl -> Ty -> Sema S bool;
  visitElement : V -> EnumElementDecl -> Ty -> Sema S bool
}.

Section Visit.
Context {V S : Type} `{!StorageVisitor V S}.
Variable this : V.
Variable dc : DeclContext.

Fixpoint visitStoredProperties (properties : list VarDecl) : Sema S bool :=
  match properties with
  | [] => mret false
  | property :: rest =>
      let propertyType := mapTypeIntoContext dc (getValueInterfaceType property) in
      stop ← visitProperty this property propertyType;
      if stop : bool then mret true else visitStoredProperties rest
  end.

Fixpoint visitElements (elements : list EnumElementDecl) : Sema S bool :=
  match elements with
  | [] => mret false
  | element :: rest =>
      match getArgumentInterfaceType element with
      | None => visitElements rest
      | Some argumentInterfaceType =>
          let elementType := mapTypeIntoContext dc argumentInterfaceType in
          stop ← visitElement this element elementType;
          if stop : bool then mret true else visitElements rest
      end
  end.

Fixpoint visitCases (cases : list EnumCaseDecl) : Sema S bool :=
  match cases with
  | [] => mret false
  | caseDecl :: rest =>
      stop ← visitElements (getElements caseDecl);
      if stop : bool then mret true else visitCases rest
  end.

(** [StorageVisitor::visit]: visit the instance storage of [nominal] as
    seen through [dc]. *)
Definition visit (nominal : NominalTypeDecl) : Sema S bool :=
  if isa StructDecl nominal || isa ClassDecl nominal then
    visitStoredProperties (getStoredProperties nominal)
  else if isa EnumDecl nominal then
    visitCases (getAllCases nominal)
  else
    assert_ (negb (isa ProtocolDeclKind nominal)
             || negb (isa BuiltinTupleDecl nominal)) ;;
    mret false.
End Visit.

(** ** Conformance checking *)

Record LacksMatchingStorage := {
  Nominal : NominalTypeDecl;
  DC : DeclContext;
  IP : InvertibleProtocolKind;
  CanAddInverse : bool
}.

Definition check (this : LacksMatchingStorage) (storage : ValueDecl) (type : Ty)
    (isEnum : bool) : Sema DiagnosticEngine bool :=
  if hasError type then mret false
  else if match IP this with
          | Copyable => negb (isNoncopyable type)
          | Escapable => isEscapable type
          end
  then mret false
  else
    diagnose (mkDiagnostic (AtValueDecl storage)
                inverse_type_member_in_conforming_type
                [ArgType type; ArgBool isEnum; ArgIdentifier (getName storage);
                 ArgNominal (nom_name (Nominal this));
                 ArgString (getProtocolName (getKnownProtocolKind (IP this)))]) ;;
    tryEmitContainmentFixits (Nominal this) (CanAddInverse this) type (IP this) ;;
    mret true.

#[global] Instance LacksMatchingStorage_visitor
  : StorageVisitor LacksMatchingStorage DiagnosticEngine := {
  visitProperty this property propertyType :=
    check this (OfVarDecl property) propertyType false;
  visitElement this element elementType :=
    check this (OfEnumElementDecl element) elementType true
}.

(** The inverses of a nominal: those of its inheritance clause and those
    the deprecated attributes stand for. *)
Definition inverses (nominalDecl : NominalTypeDecl) : InvertibleProtocolSet :=
  let inverses := inheritedInverses nominalDecl in
  let inverses :=
    if hasMoveOnlyAttr (getAttrs nominalDecl) then inverses ∪ {[ Copyable ]}
    else inverses in
  let inverses :=
    if hasNonEscapableAttr (getAttrs nominalDecl) then inverses ∪ {[ Escapable ]}
    else inverses in
  inverses.

Definition hasExplicitInverse (nominalDecl : NominalTypeDecl)
    (ip : InvertibleProtocolKind) : bool :=
  contains (inverses nominalDecl) ip.

Definition hasUnconditionalConformance (conformance : ProtocolConformance) : bool :=
  match dyn_cast_Normal conformance with
  | Some normalConf =>
      match getConditionalRequirements normalConf with
      | [] => true
      | _ :: _ => false
      end
  | None => false
  end.

Definition canAddInverse (nominalDecl : NominalTypeDecl)
    (conformance : ProtocolConformance) (ip : InvertibleProtocolKind) : bool :=
  negb (hasExplicitInverse nominalDecl ip)
  && negb (hasUnconditionalConformance conformance).

Definition checkInvertibleConformanceCommon (dc : DeclContext)
    (conformance : ProtocolConformance) (ip : InvertibleProtocolKind)
  : Sema DiagnosticEngine unit :=
  let kp := getKnownProtocolKind ip in
  let proto := getProtocol conformance in
  assert_ (isSpecificProtocol proto kp) ;;
  let nominalDecl := getSelfNominalTypeDecl dc in
  assert_ (isa StructDecl nominalDecl || isa EnumDecl nominalDecl
           || isa ClassDecl nominalDecl) ;;
  let ctx := getASTContext nominalDecl in
  (if negb (isa ClassDecl nominalDecl) || hasFeature (LangOpts ctx) MoveOnlyClasses
   then
     match dyn_cast_Normal conformance with
     | Some normalConf =>
         if hasExplicitInverse nominalDecl ip
            && hasUnconditionalConformance conformance
         then diagnose (mkDiagnostic (AtLoc (getLoc normalConf))
                          inverse_but_also_conforms
                          [ArgNominal (nom_name nominalDecl);
                           ArgString (getProtocolName kp)])
         else mret tt
     | None => mret tt
     end
   else mret tt) ;;
  if isa ClassDecl nominalDecl then mret tt
  else
    let canAddInverse := canAddInverse nominalDecl conformance ip in
    (match ip with
     | Copyable =>
         match getValueTypeDestructor nominalDecl with
         | Some deinit =>
             diagnose (mkDiagnostic (AtDestructor deinit) copyable_illegal_deinit
                         [ArgNominal (nom_name nominalDecl)]) ;;
             emitAdviceToApplyInverseAfter ip canAddInverse nominalDecl
         | None => mret tt
         end
     | Escapable => mret tt
     end) ;;
    _ ← visit {| Nominal := nominalDecl; DC := dc; IP := ip;
                 CanAddInverse := canAddInverse |} dc nominalDecl;
    mret tt.

Definition checkEscapableConformance (dc : DeclContext)
    (conformance : ProtocolConformance) : Sema DiagnosticEngine unit :=
  checkInvertibleConformanceCommon dc conformance Escapable.

Definition checkCopyableConformance (dc : DeclContext)
    (conformance : ProtocolConformance) : Sema DiagnosticEngine unit :=
  checkInvertibleConformanceCommon dc conformance Copyable.

(** ** Observing a run *)

(** The three violations the checker reports; every other diagnostic is a
    note attached to one of them. *)
Definition contradictions (ds : list Diagnostic) : list Diagnostic :=
  filter (λ d, diag_id d = inverse_but_also_conforms) ds.

Definition destructorViolations (ds : list Diagnostic) : list Diagnostic :=
  filter (λ d, diag_id d = copyable_illegal_deinit) ds.

Definition storageViolations (ds : list Diagnostic) : list Diagnostic :=
  filter (λ d, diag_id d = inverse_type_member_in_conforming_type) ds.

Definition inverseAdvice (ds : list Diagnostic) : list Diagnostic :=
  filter (λ d, diag_id d = add_inverse) ds.

Definition isNote (d : Diagnostic) : bool :=
  match diag_id d with
  | add_inverse
  | note_inverse_preventing_conformance
  | note_inverse_preventing_conformance_explicit => true
  | _ => false
  end.

(** The diagnostics of a run that are not notes. *)
Definition primaryViolations (ds : list Diagnostic) : list Diagnostic :=
  filter (λ d, isNote d = false) ds.

(** [emits m a ds]: from every engine, [m] returns [a] and appends exactly
    the diagnostics [ds]. *)
Definition emits {A} (m : Sema DiagnosticEngine A) (a : A) (ds : list Diagnostic)
  : Prop :=
  ∀ engine, m engine = Returned a (engine ++ ds).

(** What a run from the empty engine leaves in it. *)
Definition emitted {A} (m : Sema DiagnosticEngine A) : list Diagnostic :=
  match m [] with
  | Returned _ ds => ds
  | AssertionFailed => []
  end.

(** The verdict of the per-member predicate on a member of type [type]. *)
Definition memberFails (this : LacksMatchingStorage) (storage : ValueDecl)
    (type : Ty) (isEnum : bool) : bool :=
  match check this storage type isEnum [] with
  | Returned stop _ => stop
  | AssertionFailed => false
  end.

(** The elements of all the cases of an enum, in declaration order. *)
Definition allElements (nominal : NominalTypeDecl) : list EnumElementDecl :=
  concat (map getElements (getAllCases nominal)).

(** A visitor that forwards to [V] and keeps a log of the members it was
    handed, in order. *)
Record Recording (V : Type) := { forwardTo : V }.
Arguments forwardTo {V} _.

Definition recording {S A} (storage : ValueDecl) (m : Sema S A)
  : Sema (S * list ValueDecl) A :=
  fun '(s, log) =>
    match m s with
    | Returned a s' => Returned a (s', log ++ [storage])
    | AssertionFailed => AssertionFailed
    end.

#[global] Instance Recording_visitor {V S} `{!StorageVisitor V S}
  : StorageVisitor (Recording V) (S * list ValueDecl) := {
  visitProperty this property propertyType :=
    recording (OfVarDecl property)
      (visitProperty (forwardTo this) property propertyType);
  visitElement this element elementType :=
    recording (OfEnumElementDecl element)
      (visitElement (forwardTo this) element elementType)
}.

(** The members examined by the storage walk of [this] over [nominal]. *)
Definition examined (this : LacksMatchingStorage) (dc : DeclContext)
    (nominal : NominalTypeDecl) : list ValueDecl :=
  match visit {| forwardTo := this |} dc nominal ([], []) with
  | Returned _ (_, log) => log
  | AssertionFailed => []
  end.

(** The advice note: anchored at the nominal, carrying one fix-it. *)
Definition adviceNote (ip : InvertibleProtocolKind) (nominal : NominalTypeDecl)
  : Diagnostic :=
  addConformanceFixIt nominal
    (mkDiagnostic (AtNominal (nom_name nominal)) add_inverse
       [ArgNominal (nom_name nominal);
        ArgString (getProtocolName (getKnownProtocolKind ip))])
    (getKnownProtocolKind ip) true.

(** The notes that explain where the non-conforming type comes from. *)
Definition originNotes (enclosingNom : NominalTypeDecl) (nonConformingTy : Ty)
    (ip : InvertibleProtocolKind) : list Diagnostic :=
  emitted (tryEmitContainmentFixits enclosingNom false nonConformingTy ip).

(** The primary diagnostic of [check] for a member, and everything [check]
    emits with it. *)
Definition memberViolation (this : LacksMatchingStorage) (storage : ValueDecl)
    (type : Ty) (isEnum : bool) : Diagnostic :=
  mkDiagnostic (AtValueDecl storage) inverse_type_member_in_conforming_type
    [ArgType type; ArgBool isEnum; ArgIdentifier (getName storage);
     ArgNominal (nom_name (Nominal this));
     ArgString (getProtocolName (getKnownProtocolKind (IP this)))].

Definition memberDiagnostics (this : LacksMatchingStorage) (storage : ValueDecl)
    (type : Ty) (isEnum : bool) : list Diagnostic :=
  memberViolation this storage type isEnum
    :: (if CanAddInverse this then [adviceNote (IP this) (Nominal this)] else [])
    ++ originNotes (Nominal this) type (IP this).

Definition propertyType (dc : DeclContext) (property : VarDecl) : Ty :=
  mapTypeIntoContext dc (getValueInterfaceType property).

Definition propertyFails (this : LacksMatchingStorage) (dc : DeclContext)
    (property : VarDecl) : bool :=
  memberFails this (OfVarDecl property) (propertyType dc property) false.

Definition elementFails (this : LacksMatchingStorage) (dc : DeclContext)
    (element : EnumElementDecl) : bool :=
  match getArgumentInterfaceType element with
  | Some type =>
      memberFails this (OfEnumElementDecl element) (mapTypeIntoContext dc type) true
  | None => false
  end.

Definition propertiesDiagnostics (this : LacksMatchingStorage) (dc : DeclContext)
    (properties : list VarDecl) : list Diagnostic :=
  match find (propertyFails this dc) properties with
  | Some property =>
      memberDiagnostics this (OfVarDecl property) (propertyType dc property) false
  | None => []
  end.

Definition elementsDiagnostics (this : LacksMatchingStorage) (dc : DeclContext)
    (elements : list EnumElementDecl) : list Diagnostic :=
  match find (elementFails this dc) elements with
  | Some element =>
      match getArgumentInterfaceType element with
      | Some type =>
          memberDiagnostics this (OfEnumElementDecl element)
            (mapTypeIntoContext dc type) true
      | None => []
      end
  | None => []
  end.

(** The prefix of a list up to and including the first hit of [f]. *)
Fixpoint uptoFirst {A} (f : A -> bool) (l : list A) : list A :=
  match l with
  | [] => []
  | x :: rest => x :: (if f x then [] else uptoFirst f rest)
  end.

(** The conditions the assertions of [checkInvertibleConformanceCommon]
    put on a call. *)
Definition assertionsHold (dc : DeclContext) (conformance : ProtocolConformance)
    (ip : InvertibleProtocolKind) : bool :=
  isSpecificProtocol (getProtocol conformance) (getKnownProtocolKind ip)
  && (isa StructDecl (getSelfNominalTypeDecl dc)
      || isa EnumDecl (getSelfNominalTypeDecl dc)
      || isa ClassDecl (getSelfNominalTypeDecl dc)).

(** The visitor [checkInvertibleConformanceCommon] runs over the storage. *)
Definition storageChecker (dc : DeclContext) (conformance : ProtocolConformance)
    (ip : InvertibleProtocolKind) : LacksMatchingStorage :=
  {| Nominal := getSelfNominalTypeDecl dc; DC := dc; IP := ip;
     CanAddInverse := canAddInverse (getSelfNominalTypeDecl dc) conformance ip |}.

(** The diagnostics of the three rules, as a run emits them. *)
Definition contradictionViolation (nominalDecl : NominalTypeDecl)
    (normalConf : NormalProtocolConformance) (ip : InvertibleProtocolKind)
  : Diagnostic :=
  mkDiagnostic (AtLoc (getLoc normalConf)) inverse_but_also_conforms
    [ArgNominal (nom_name nominalDecl);
     ArgString (getProtocolName (getKnownProtocolKind ip))].

Definition contradictionDiagnostics (nominalDecl : NominalTypeDecl)
    (conformance : ProtocolConformance) (ip : InvertibleProtocolKind)
  : list Diagnostic :=
  match conformance with
  | Normal normalConf =>
      if hasExplicitInverse nominalDecl ip && hasUnconditionalConformance conformance
      then [contradictionViolation nominalDecl normalConf ip]
      else []
  | NotNormal _ => []
  end.

Definition destructorViolation (nominalDecl : NominalTypeDecl)
    (deinit : DestructorDecl) : Diagnostic :=
  mkDiagnostic (AtDestructor deinit) copyable_illegal_deinit
    [ArgNominal (nom_name nominalDecl)].

Definition destructorDiagnostics (nominalDecl : NominalTypeDecl)
    (conformance : ProtocolConformance) (ip : InvertibleProtocolKind)
  : list Diagnostic :=
  match ip, getValueTypeDestructor nominalDecl with
  | Copyable, Some deinit =>
      destructorViolation nominalDecl deinit
        :: (if canAddInverse nominalDecl conformance ip
            then [adviceNote ip nominalDecl] else [])
  | _, _ => []
  end.

Definition storageDiagnostics (this : LacksMatchingStorage) (dc : DeclContext)
    (nominal : NominalTypeDecl) : list Diagnostic :=
  if isa StructDecl nominal || isa ClassDecl nominal then
    propertiesDiagnostics this dc (getStoredProperties nominal)
  else if isa EnumDecl nominal then
    elementsDiagnostics this dc (allElements nominal)
  else [].

(** Everything one call of [checkInvertibleConformanceCommon] emits. *)
Definition checkDiagnostics (dc : DeclContext) (conformance : ProtocolConformance)
    (ip : InvertibleProtocolKind) : list Diagnostic :=
  let nominalDecl := getSelfNominalTypeDecl dc in
  (if negb (isa ClassDecl nominalDecl)
      || hasFeature (LangOpts (getASTContext nominalDecl)) MoveOnlyClasses
   then contradictionDiagnostics nominalDecl conformance ip else [])
  ++ (if isa ClassDecl nominalDecl then []
      else destructorDiagnostics nominalDecl conformance ip
           ++ storageDiagnostics (storageChecker dc conformance ip) dc nominalDecl).

(** ** Sample declarations *)

Definition ex_noFeatures : ASTContext :=
  {| LangOpts := {| hasFeature := λ _, false |} |}.

Definition ex_moveOnlyClasses : ASTContext :=
  {| LangOpts := {| hasFeature := λ _, true |} |}.

(** [Int]: copyable and escapable. *)
Definition ex_Int : Ty :=
  {| ty_name := "Int"; hasError := false; isNoncopyable := false;
     isEscapable := true;
     ty_structure := NominalType {| nr_name := "Int"; nr_getLoc := 0%N |} |}.

(** [FileHandle]: a noncopyable struct declared at location 40. *)
Definition ex_FileHandle : Ty :=
  {| ty_name := "FileHandle"; hasError := false; isNoncopyable := true;
     isEscapable := true;
     ty_structure := NominalType {| nr_name := "FileHandle"; nr_getLoc := 40%N |} |}.

(** [Span]: a nonescapable struct declared at location 50. *)
Definition ex_Span : Ty :=
  {| ty_name := "Span"; hasError := false; isNoncopyable := false;
     isEscapable := false;
     ty_structure := NominalType {| nr_name := "Span"; nr_getLoc := 50%N |} |}.

(** [Span<Missing>]: the nonescapable [Span] applied to an unresolved
    argument, so the type is in an error state. *)
Definition ex_SpanOfMissing : Ty :=
  {| ty_name := "Span<Missing>"; hasError := true; isNoncopyable := false;
     isEscapable := false;
     ty_structure := NominalType {| nr_name := "Span"; nr_getLoc := 50%N |} |}.

Definition ex_noAttrs : DeclAttributes :=
  {| hasMoveOnlyAttr := false; hasNonEscapableAttr := false |}.

Definition ex_nominal (name : string) (kind : DeclKind) (ctx : ASTContext)
    (inherited : list InheritedEntry) (inherits : InvertibleProtocolSet)
    (attrs : DeclAttributes) (properties : list VarDecl)
    (cases : list EnumCaseDecl) (deinit : option DestructorDecl)
  : NominalTypeDecl :=
  {| nom_name := name; nom_kind := kind; getASTContext := ctx;
     getParentModule := "Main"; getInherited := inherited;
     inheritedInverses := inherits; getBracesStart := 10%N; getAttrs := attrs;
     getStoredProperties := properties; getAllCases := cases;
     getValueTypeDestructor := deinit |}.

Definition ex_dc (nominal : NominalTypeDecl) : DeclContext :=
  {| getSelfNominalTypeDecl := nominal; mapTypeIntoContext := λ type, type |}.

Definition ex_CopyableProto : ProtocolDecl :=
  {| proto_name := "Copyable"; proto_known := Some KP_Copyable |}.

Definition ex_EscapableProto : ProtocolDecl :=
  {| proto_name := "Escapable"; proto_known := Some KP_Escapable |}.

(** Unconditional conformances, written at location 20. *)
Definition ex_CopyableConformance : ProtocolConformance :=
  Normal {| normal_getProtocol := ex_CopyableProto; getLoc := 20%N;
            getConditionalRequirements := [] |}.

Definition ex_EscapableConformance : ProtocolConformance :=
  Normal {| normal_getProtocol := ex_EscapableProto; getLoc := 20%N;
            getConditionalRequirements := [] |}.

(** A conditional conformance: [extension Guard: Copyable where T: Copyable]. *)
Definition ex_ConditionalCopyable : ProtocolConformance :=
  Normal {| normal_getProtocol := ex_CopyableProto; getLoc := 21%N;
            getConditionalRequirements := ["T: Copyable"] |}.

Definition ex_var (name : string) (type : Ty) : VarDecl :=
  {| var_name := name; getValueInterfaceType := type |}.

(** [struct Pair { var n: Int }] *)
Definition ex_Pair : NominalTypeDecl :=
  ex_nominal "Pair" StructDecl ex_noFeatures [] ∅ ex_noAttrs
    [ex_var "n" ex_Int] [] None.

(** [struct Box { var n: Int; var x: FileHandle; var y: FileHandle }] *)
Definition ex_Box : NominalTypeDecl :=
  ex_nominal "Box" StructDecl ex_noFeatures [] ∅ ex_noAttrs
    [ex_var "n" ex_Int; ex_var "x" ex_FileHandle; ex_var "y" ex_FileHandle]
    [] None.

(** [struct Token: ~Copyable { var n: Int }] *)
Definition ex_Token : NominalTypeDecl :=
  ex_nominal "Token" StructDecl ex_noFeatures
    [{| ie_text := "~Copyable"; ie_endLoc := 9%N |}] {[ Copyable ]} ex_noAttrs
    [ex_var "n" ex_Int] [] None.

(** [struct Guard { var n: Int; deinit {} }], the deinit at location 30. *)
Definition ex_Guard : NominalTypeDecl :=
  ex_nominal "Guard" StructDecl ex_noFeatures [] ∅ ex_noAttrs
    [ex_var "n" ex_Int] [] (Some {| deinit_loc := 30%N |}).

Definition ex_element (name : string) (payload : option Ty) : EnumElementDecl :=
  {| elt_name := name; getArgumentInterfaceType := payload |}.

(** [enum E { case b; case a(Span) }] *)
Definition ex_E : NominalTypeDecl :=
  ex_nominal "E" EnumDecl ex_noFeatures [] ∅ ex_noAttrs []
    [{| getElements := [ex_element "b" None] |};
     {| getElements := [ex_element "a" (Some ex_Span)] |}] None.

(** [enum F { case a(Span<Missing>) }] *)
Definition ex_F : NominalTypeDecl :=
  ex_nominal "F" EnumDecl ex_noFeatures [] ∅ ex_noAttrs []
    [{| getElements := [ex_element "a" (Some ex_SpanOfMissing)] |}] None.

(** [class Ref: ~Copyable { var x: FileHandle }], without the
    [MoveOnlyClasses] feature. *)
Definition ex_Ref : NominalTypeDecl :=
  ex_nominal "Ref" ClassDecl ex_noFeatures
    [{| ie_text := "~Copyable"; ie_endLoc := 9%N |}] {[ Copyable ]} ex_noAttrs
    [ex_var "x" ex_FileHandle] [] None.

(** [protocol Shape {}]: a nominal that is neither struct, enum nor class. *)
Definition ex_Shape : NominalTypeDecl :=
  ex_nominal "Shape" ProtocolDeclKind ex_noFeatures [] ∅ ex_noAttrs [] [] None.

(** [struct Single { var x: FileHandle }] *)
Definition ex_Single : NominalTypeDecl :=
  ex_nominal "Single" StructDecl ex_noFeatures [] ∅ ex_noAttrs
    [ex_var "x" ex_FileHandle] [] None.

(** [struct Vault { var h: FileHandle; deinit {} }], the deinit at
    location 30. *)
Definition ex_Vault : NominalTypeDecl :=
  ex_nominal "Vault" StructDecl ex_noFeatures [] ∅ ex_noAttrs
    [ex_var "h" ex_FileHandle] [] (Some {| deinit_loc := 30%N |}).

(** * Properties *)

(** ** Laws of runs *)

Lemma emits_ret {A} (a : A) : emits (mret a) a [].
Proof. intros engine. unfold mret, Sema_ret. by rewrite app_nil_r. Qed.

Lemma emits_bind {A B} (m : Sema DiagnosticEngine A)
    (k : A -> Sema DiagnosticEngine B) a b ds1 ds2 :
  emits m a ds1 -> emits (k a) b ds2 -> emits (m ≫= k) b (ds1 ++ ds2).
Proof.
  intros Hm Hk engine. unfold mbind, Sema_bind.
  rewrite Hm, Hk. by rewrite app_assoc.
Qed.

Lemma emits_diagnose diag : emits (diagnose diag) tt [diag].
Proof. by intros engine. Qed.

Lemma emits_assert_true : emits (assert_ true) tt [].
Proof. intros engine. unfold assert_. by rewrite app_nil_r. Qed.

Lemma emits_inj {A} (m : Sema DiagnosticEngine A) a a' ds ds' :
  emits m a ds -> emits m a' ds' -> a = a' ∧ ds = ds'.
Proof.
  intros H H'. specialize (H []). specialize (H' []).
  rewrite H in H'. simpl in H'. by inversion H'.
Qed.

Lemma emits_emitted {A} (m : Sema DiagnosticEngine A) a ds :
  emits m a ds -> emitted m = ds.
Proof. intros H. unfold emitted. by rewrite (H []). Qed.

Create HintDb emits.
#[global] Hint Resolve emits_ret emits_diagnose emits_assert_true : emits.

(** ** The notes *)

Lemma emitAdvice_emits ip can nominal :
  emits (emitAdviceToApplyInverseAfter ip can nominal) tt
    (if can then [adviceNote ip nominal] else []).
Proof.
  unfold emitAdviceToApplyInverseAfter. destruct can; auto with emits.
Qed.

Lemma adviceNote_id ip nominal : diag_id (adviceNote ip nominal) = add_inverse.
Proof. unfold adviceNote, addConformanceFixIt. by destruct (getInherited nominal). Qed.

Lemma adviceNote_fixIts ip nominal :
  diag_fixIts (adviceNote ip nominal) =
    [match getInherited nominal with
     | [] => fixItInsert (getBracesStart nominal)
               (": ~" +:+ getProtocolName (getKnownProtocolKind ip))
     | _ :: _ => fixItInsertAfter (getEndLoc (getInherited nominal))
               (", ~" +:+ getProtocolName (getKnownProtocolKind ip))
     end].
Proof. unfold adviceNote, addConformanceFixIt. by destruct (getInherited nominal). Qed.

Lemma tryEmitContainmentFixits_emits enclosingNom can type ip :
  emits (tryEmitContainmentFixits enclosingNom can type ip) tt
    ((if can then [adviceNote ip enclosingNom] else [])
       ++ originNotes enclosingNom type ip).
Proof.
  unfold originNotes, emitted, tryEmitContainmentFixits.
  eapply emits_bind; [apply emitAdvice_emits|].
  unfold mbind, Sema_bind; simpl.
  destruct (ty_structure type) as [[[param|]|]|nominal|]; simpl;
    repeat case_bool_decide; try destruct (isValid _); simpl;
    auto with emits.
Qed.

Lemma originNotes_ids enclosingNom type ip :
  Forall (λ d, (diag_id d = note_inverse_preventing_conformance
                ∨ diag_id d = note_inverse_preventing_conformance_explicit)
               ∧ diag_fixIts d = [])
    (originNotes enclosingNom type ip).
Proof.
  unfold originNotes, emitted, tryEmitContainmentFixits.
  unfold mbind, Sema_bind; simpl.
  destruct (ty_structure type) as [[[param|]|]|nominal|]; simpl;
    repeat case_bool_decide; try destruct (isValid _); simpl;
    repeat first [apply List.Forall_nil | apply List.Forall_cons; [simpl; tauto|]].
Qed.

(** ** The per-member predicate *)

Lemma memberFails_eq this storage type isEnum :
  memberFails this storage type isEnum =
    negb (hasError type)
    && negb (match IP this with
             | Copyable => negb (isNoncopyable type)
             | Escapable => isEscapable type
             end).
Proof.
  unfold memberFails, check.
  destruct (hasError type); [done|].
  destruct (IP this), (isNoncopyable type), (isEscapable type); simpl; try done.
  all: unfold mbind, Sema_bind, diagnose;
    by rewrite (tryEmitContainmentFixits_emits _ _ _ _ _).
Qed.

Lemma check_emits this storage type isEnum :
  emits (check this storage type isEnum) (memberFails this storage type isEnum)
    (if memberFails this storage type isEnum
     then memberDiagnostics this storage type isEnum else []).
Proof.
  rewrite memberFails_eq. unfold check.
  destruct (hasError type); simpl; [auto with emits|].
  destruct (match IP this with
            | Copyable => negb (isNoncopyable type)
            | Escapable => isEscapable type
            end); simpl; [auto with emits|].
  unfold memberDiagnostics.
  change (?d :: ?l) with ([d] ++ l).
  eapply emits_bind; [apply emits_diagnose|].
  rewrite <- (app_nil_r (_ ++ originNotes _ _ _)).
  eapply emits_bind; [apply tryEmitContainmentFixits_emits|].
  apply emits_ret.
Qed.

(** ** The walk *)

Lemma find_app_first {A} (f : A -> bool) (l1 l2 : list A) :
  find f (l1 ++ l2) = match find f l1 with
                      | Some x => Some x
                      | None => find f l2
                      end.
Proof. induction l1 as [|x l1 IH]; simpl; [done|]. by destruct (f x). Qed.

Lemma find_first {A} (f : A -> bool) (l : list A) x :
  find f l = Some x ->
  ∃ pre post, l = pre ++ x :: post ∧ Forall (λ y, f y = false) pre ∧ f x = true.
Proof.
  induction l as [|y l IH]; simpl; [done|].
  destruct (f y) eqn:Hy.
  - intros [= ->]. by exists [], l.
  - intros Hfind. destruct (IH Hfind) as (pre & post & -> & Hpre & Hx).
    exists (y :: pre), post. split_and!; [done| |done].
    by apply List.Forall_cons.
Qed.

Lemma find_at_first {A} (f : A -> bool) (pre post : list A) x :
  Forall (λ y, f y = false) pre -> f x = true ->
  find f (pre ++ x :: post) = Some x.
Proof.
  intros Hpre Hx. induction Hpre as [|y pre Hy _ IH]; simpl.
  - by rewrite Hx.
  - by rewrite Hy.
Qed.

Lemma uptoFirst_at_first {A} (f : A -> bool) (pre post : list A) x :
  Forall (λ y, f y = false) pre -> f x = true ->
  uptoFirst f (pre ++ x :: post) = pre ++ [x].
Proof.
  intros Hpre Hx. induction Hpre as [|y pre Hy _ IH]; simpl.
  - by rewrite Hx.
  - by rewrite Hy, IH.
Qed.

Lemma visitStoredProperties_emits this dc properties :
  emits (visitStoredProperties this dc properties)
    (bool_decide (is_Some (find (propertyFails this dc) properties)))
    (propertiesDiagnostics this dc properties).
Proof.
  unfold propertiesDiagnostics.
  induction properties as [|property rest IH]; simpl; [apply emits_ret|].
  fold (propertyType dc property).
  pose proof (check_emits this (OfVarDecl property) (propertyType dc property) false)
    as Hcheck.
  fold (propertyFails this dc property) in Hcheck.
  destruct (propertyFails this dc property).
  - rewrite <- (app_nil_r (memberDiagnostics _ _ _ _)).
    eapply emits_bind; [apply Hcheck|]. apply emits_ret.
  - change (emits (check this (OfVarDecl property) (propertyType dc property) false
                     ≫= λ stop : bool, if stop then mret true
                                        else visitStoredProperties this dc rest)
              (bool_decide (is_Some (find (propertyFails this dc) rest)))
              ([] ++ match find (propertyFails this dc) rest with
                     | Some p => memberDiagnostics this (OfVarDecl p)
                                   (propertyType dc p) false
                     | None => []
                     end)).
    eapply emits_bind; [apply Hcheck|]. apply IH.
Qed.

Lemma visitElements_emits this dc elements :
  emits (visitElements this dc elements)
    (bool_decide (is_Some (find (elementFails this dc) elements)))
    (elementsDiagnostics this dc elements).
Proof.
  unfold elementsDiagnostics.
  induction elements as [|element rest IH]; simpl; [apply emits_ret|].
  destruct (getArgumentInterfaceType element) as [type|] eqn:Harg.
  - assert (elementFails this dc element
            = memberFails this (OfEnumElementDecl element)
                (mapTypeIntoContext dc type) true) as ->
      by (unfold elementFails; by rewrite Harg).
    pose proof (check_emits this (OfEnumElementDecl element)
                  (mapTypeIntoContext dc type) true) as Hcheck.
    destruct (memberFails this (OfEnumElementDecl element)
                (mapTypeIntoContext dc type) true).
    + rewrite Harg. rewrite <- (app_nil_r (memberDiagnostics _ _ _ _)).
      eapply emits_bind; [apply Hcheck|]. apply emits_ret.
    + rewrite <- (app_nil_l (match find _ rest with Some _ => _ | None => _ end)).
      eapply emits_bind; [apply Hcheck|]. apply IH.
  - assert (elementFails this dc element = false) as ->
      by (unfold elementFails; by rewrite Harg).
    apply IH.
Qed.

Lemma visitCases_emits this dc cases :
  emits (visitCases this dc cases)
    (bool_decide (is_Some (find (elementFails this dc)
                             (concat (map getElements cases)))))
    (elementsDiagnostics this dc (concat (map getElements cases))).
Proof.
  induction cases as [|caseDecl rest IH]; simpl; [apply emits_ret|].
  pose proof (visitElements_emits this dc (getElements caseDecl)) as Hels.
  unfold elementsDiagnostics in *. rewrite find_app_first.
  destruct (find (elementFails this dc) (getElements caseDecl)) as [element|].
  - rewrite <- (app_nil_r (match getArgumentInterfaceType element with
                           | Some _ => _ | None => _ end)).
    eapply emits_bind; [apply Hels|]. apply emits_ret.
  - rewrite <- (app_nil_l (match find _ _ with Some _ => _ | None => _ end)).
    eapply emits_bind; [apply Hels|]. apply IH.
Qed.

Lemma visit_emits this dc nominal :
  ∃ stop, emits (visit this dc nominal) stop (storageDiagnostics this dc nominal).
Proof.
  unfold visit, storageDiagnostics.
  destruct (isa StructDecl nominal || isa ClassDecl nominal).
  { eexists. apply visitStoredProperties_emits. }
  destruct (isa EnumDecl nominal).
  { eexists. apply visitCases_emits. }
  exists false. rewrite <- (app_nil_l []).
  eapply emits_bind; [|apply emits_ret].
  unfold isa. repeat case_bool_decide; simpl; try apply emits_assert_true.
  congruence.
Qed.

Lemma visitStoredProperties_recording this dc properties engine log :
  visitStoredProperties {| forwardTo := this |} dc properties (engine, log) =
    Returned (bool_decide (is_Some (find (propertyFails this dc) properties)))
      (engine ++ propertiesDiagnostics this dc properties,
       log ++ map OfVarDecl (uptoFirst (propertyFails this dc) properties)).
Proof.
  unfold propertiesDiagnostics.
  revert engine log.
  induction properties as [|property rest IH]; intros engine log; simpl.
  { unfold mret, Sema_ret. by rewrite !app_nil_r. }
  unfold mbind, Sema_bind, recording. simpl.
  fold (propertyType dc property).
  rewrite (check_emits this (OfVarDecl property) (propertyType dc property) false engine).
  fold (propertyFails this dc property).
  destruct (propertyFails this dc property); simpl.
  - done.
  - rewrite IH. by rewrite app_nil_r, <- app_assoc.
Qed.

Lemma examined_properties this dc nominal :
  isa StructDecl nominal = true ->
  examined this dc nominal =
    map OfVarDecl (uptoFirst (propertyFails this dc) (getStoredProperties nominal)).
Proof.
  intros Hstruct. unfold examined, visit. rewrite Hstruct. simpl.
  by rewrite visitStoredProperties_recording.
Qed.

(** ** One call of the checker *)

Lemma emits_bind_eq {A B} (m : Sema DiagnosticEngine A)
    (k : A -> Sema DiagnosticEngine B) a b ds1 ds2 ds :
  emits m a ds1 -> emits (k a) b ds2 -> ds = ds1 ++ ds2 -> emits (m ≫= k) b ds.
Proof. intros Hm Hk ->. by eapply emits_bind. Qed.

Lemma assertionsHold_protocol dc conformance ip :
  assertionsHold dc conformance ip = true ->
  isSpecificProtocol (getProtocol conformance) (getKnownProtocolKind ip) = true.
Proof. unfold assertionsHold. by intros [? _]%andb_prop. Qed.

Lemma assertionsHold_kind dc conformance ip :
  assertionsHold dc conformance ip = true ->
  isa StructDecl (getSelfNominalTypeDecl dc)
  || isa EnumDecl (getSelfNominalTypeDecl dc)
  || isa ClassDecl (getSelfNominalTypeDecl dc) = true.
Proof. unfold assertionsHold. by intros [_ ?]%andb_prop. Qed.

Lemma checkInvertibleConformanceCommon_emits dc conformance ip :
  assertionsHold dc conformance ip = true ->
  emits (checkInvertibleConformanceCommon dc conformance ip) tt
    (checkDiagnostics dc conformance ip).
Proof.
  intros Hassert.
  pose proof (assertionsHold_protocol _ _ _ Hassert) as Hproto.
  pose proof (assertionsHold_kind _ _ _ Hassert) as Hkind.
  unfold checkInvertibleConformanceCommon, checkDiagnostics.
  rewrite Hproto, Hkind.
  eapply emits_bind_eq; [apply emits_assert_true| |reflexivity].
  eapply emits_bind_eq; [apply emits_assert_true| |reflexivity].
  simpl. eapply emits_bind.
  { destruct (negb (isa ClassDecl (getSelfNominalTypeDecl dc))
              || hasFeature (LangOpts (getASTContext (getSelfNominalTypeDecl dc)))
                   MoveOnlyClasses); [|apply emits_ret].
    unfold contradictionDiagnostics.
    destruct conformance as [normalConf|proto]; simpl; [|apply emits_ret].
    destruct (hasExplicitInverse _ _ && _); auto with emits. }
  destruct (isa ClassDecl (getSelfNominalTypeDecl dc)); [apply emits_ret|].
  eapply emits_bind.
  { unfold destructorDiagnostics.
    destruct ip; [|apply emits_ret].
    destruct (getValueTypeDestructor _) as [deinit|]; [|apply emits_ret].
    change (?d :: ?l) with ([d] ++ l).
    eapply emits_bind; [apply emits_diagnose|]. apply emitAdvice_emits. }
  destruct (visit_emits (storageChecker dc conformance ip) dc
              (getSelfNominalTypeDecl dc)) as [stop Hvisit].
  eapply emits_bind_eq; [apply Hvisit|apply emits_ret|].
  by rewrite app_nil_r.
Qed.

(** ** Sorting the diagnostics of a run by kind *)

Lemma originNotes_filter id enclosingNom type ip :
  id ≠ note_inverse_preventing_conformance ->
  id ≠ note_inverse_preventing_conformance_explicit ->
  filter (λ d, diag_id d = id) (originNotes enclosingNom type ip) = [].
Proof.
  intros Hne1 Hne2.
  induction (originNotes_ids enclosingNom type ip) as [|d ds Hd _ IH]; [done|].
  rewrite filter_cons_False; [done|]. intros Heq. rewrite Heq in Hd.
  destruct Hd as [[?|?] _]; done.
Qed.

Lemma adviceNotes_filter id (can : bool) ip nominal :
  filter (λ d, diag_id d = id) (if can then [adviceNote ip nominal] else []) =
    if can && bool_decide (id = add_inverse) then [adviceNote ip nominal] else [].
Proof.
  destruct can; simpl; [|done].
  case_bool_decide as Hid.
  - rewrite filter_cons_True; [done|]. by rewrite adviceNote_id.
  - rewrite filter_cons_False; [done|]. by rewrite adviceNote_id.
Qed.

Lemma memberDiagnostics_filter id this storage type isEnum :
  id ≠ note_inverse_preventing_conformance ->
  id ≠ note_inverse_preventing_conformance_explicit ->
  filter (λ d, diag_id d = id) (memberDiagnostics this storage type isEnum) =
    (if bool_decide (id = inverse_type_member_in_conforming_type)
     then [memberViolation this storage type isEnum] else [])
    ++ (if CanAddInverse this && bool_decide (id = add_inverse)
        then [adviceNote (IP this) (Nominal this)] else []).
Proof.
  intros Hne1 Hne2. unfold memberDiagnostics.
  rewrite filter_cons, filter_app, adviceNotes_filter, originNotes_filter by done.
  rewrite app_nil_r. simpl.
  case_decide; repeat case_bool_decide; simplify_eq; done.
Qed.

Lemma contradictionDiagnostics_filter id nominalDecl conformance ip :
  filter (λ d, diag_id d = id) (contradictionDiagnostics nominalDecl conformance ip) =
    if bool_decide (id = inverse_but_also_conforms)
    then contradictionDiagnostics nominalDecl conformance ip else [].
Proof.
  unfold contradictionDiagnostics.
  destruct conformance as [normalConf|proto]; [|by case_bool_decide].
  destruct (hasExplicitInverse _ _ && _); [|by case_bool_decide].
  rewrite filter_cons. simpl.
  case_decide; repeat case_bool_decide; simplify_eq; done.
Qed.

Lemma destructorDiagnostics_filter id nominalDecl conformance ip :
  filter (λ d, diag_id d = id) (destructorDiagnostics nominalDecl conformance ip) =
    match ip, getValueTypeDestructor nominalDecl with
    | Copyable, Some deinit =>
        (if bool_decide (id = copyable_illegal_deinit)
         then [destructorViolation nominalDecl deinit] else [])
        ++ (if canAddInverse nominalDecl conformance ip
               && bool_decide (id = add_inverse)
            then [adviceNote ip nominalDecl] else [])
    | _, _ => []
    end.
Proof.
  unfold destructorDiagnostics.
  destruct ip; [|done].
  destruct (getValueTypeDestructor nominalDecl) as [deinit|]; [|done].
  rewrite filter_cons, adviceNotes_filter. simpl.
  case_decide; repeat case_bool_decide; simplify_eq; done.
Qed.

(** The storage walk emits nothing, or what [check] emits for one member
    that fails. *)
Lemma storageDiagnostics_cases this dc nominal :
  storageDiagnostics this dc nominal = []
  ∨ ∃ storage type isEnum,
      memberFails this storage type isEnum = true
      ∧ storageDiagnostics this dc nominal
        = memberDiagnostics this storage type isEnum.
Proof.
  unfold storageDiagnostics, propertiesDiagnostics, elementsDiagnostics.
  destruct (isa StructDecl nominal || isa ClassDecl nominal).
  { destruct (find _ _) as [property|] eqn:Hfind; [|by left].
    right. apply find_some in Hfind as [_ Hfails]. eauto. }
  destruct (isa EnumDecl nominal); [|by left].
  destruct (find _ _) as [element|] eqn:Hfind; [|by left].
  apply find_some in Hfind as [_ Hfails]. unfold elementFails in Hfails.
  destruct (getArgumentInterfaceType element) as [type|]; [|done].
  right. eauto.
Qed.

Lemma storageDiagnostics_filter_length id this dc nominal :
  id ≠ note_inverse_preventing_conformance ->
  id ≠ note_inverse_preventing_conformance_explicit ->
  length (filter (λ d, diag_id d = id) (storageDiagnostics this dc nominal)) ≤ 1.
Proof.
  intros Hne1 Hne2.
  destruct (storageDiagnostics_cases this dc nominal)
    as [->|(storage & type & isEnum & _ & ->)]; [simpl; lia|].
  rewrite memberDiagnostics_filter by done.
  repeat case_bool_decide; subst; try done;
    destruct (CanAddInverse this); simpl; lia.
Qed.

Lemma isa_EnumDecl nominal :
  isa EnumDecl nominal = true ->
  isa StructDecl nominal = false ∧ isa ClassDecl nominal = false.
Proof.
  unfold isa. intros Hk%bool_decide_eq_true.
  split; apply bool_decide_eq_false; congruence.
Qed.

Lemma isa_StructDecl nominal :
  isa StructDecl nominal = true ->
  isa EnumDecl nominal = false ∧ isa ClassDecl nominal = false.
Proof.
  unfold isa. intros Hk%bool_decide_eq_true.
  split; apply bool_decide_eq_false; congruence.
Qed.

Lemma isa_ClassDecl nominal :
  isa ClassDecl nominal = true ->
  isa StructDecl nominal = false ∧ isa EnumDecl nominal = false.
Proof.
  unfold isa. intros Hk%bool_decide_eq_true.
  split; apply bool_decide_eq_false; congruence.
Qed.

Lemma checkDiagnostics_filter id dc conformance ip :
  filter (λ d, diag_id d = id) (checkDiagnostics dc conformance ip) =
    (if (negb (isa ClassDecl (getSelfNominalTypeDecl dc))
         || hasFeature (LangOpts (getASTContext (getSelfNominalTypeDecl dc)))
              MoveOnlyClasses)
        && bool_decide (id = inverse_but_also_conforms)
     then contradictionDiagnostics (getSelfNominalTypeDecl dc) conformance ip
     else [])
    ++ (if isa ClassDecl (getSelfNominalTypeDecl dc) then []
        else filter (λ d, diag_id d = id)
               (destructorDiagnostics (getSelfNominalTypeDecl dc) conformance ip)
             ++ filter (λ d, diag_id d = id)
                  (storageDiagnostics (storageChecker dc conformance ip) dc
                     (getSelfNominalTypeDecl dc))).
Proof.
  unfold checkDiagnostics. simpl. rewrite filter_app. f_equal.
  - destruct (negb _ || _); simpl; [|done].
    apply contradictionDiagnostics_filter.
  - destruct (isa ClassDecl _); [done|]. by rewrite filter_app.
Qed.

(** The storage violations of a call on a struct or an enum are those of
    its storage walk. *)
Lemma checkDiagnostics_storageViolations dc conformance ip :
  isa ClassDecl (getSelfNominalTypeDecl dc) = false ->
  storageViolations (checkDiagnostics dc conformance ip) =
    storageViolations (storageDiagnostics (storageChecker dc conformance ip) dc
                         (getSelfNominalTypeDecl dc)).
Proof.
  intros Hclass. unfold storageViolations.
  rewrite checkDiagnostics_filter, Hclass, destructorDiagnostics_filter.
  rewrite andb_false_r. simpl.
  destruct ip; [|done].
  destruct (getValueTypeDestructor _); [|done].
  by rewrite andb_false_r.
Qed.

Lemma find_none_filter {A} (f : A -> bool) (l : list A) :
  find f l = None -> filter (λ x, f x = true) l = [].
Proof.
  induction l as [|x l IH]; simpl; [done|].
  destruct (f x) eqn:Hx; [done|]. intros Hfind.
  rewrite filter_cons_False by (rewrite Hx; done). auto.
Qed.

(** The inverses of a nominal come from its inheritance clause or from one
    of the two deprecated attributes. *)
Lemma elem_of_inverses nominalDecl ip :
  ip ∈ inverses nominalDecl ↔
    ip ∈ inheritedInverses nominalDecl
    ∨ (ip = Copyable ∧ hasMoveOnlyAttr (getAttrs nominalDecl) = true)
    ∨ (ip = Escapable ∧ hasNonEscapableAttr (getAttrs nominalDecl) = true).
Proof.
  unfold inverses.
  destruct (hasMoveOnlyAttr _), (hasNonEscapableAttr _);
    rewrite ?elem_of_union, ?elem_of_singleton; intuition congruence.
Qed.

Lemma hasExplicitInverse_true nominalDecl ip :
  hasExplicitInverse nominalDecl ip = true ↔ ip ∈ inverses nominalDecl.
Proof. unfold hasExplicitInverse, contains. apply bool_decide_eq_true. Qed.

Lemma primaryViolations_length ds :
  length (primaryViolations ds) =
    length (contradictions ds) + length (destructorViolations ds)
    + length (storageViolations ds).
Proof.
  unfold primaryViolations, contradictions, destructorViolations, storageViolations.
  induction ds as [|d ds IH]; [done|].
  rewrite !filter_cons.
  repeat case_decide; unfold isNote in *;
    destruct (diag_id d); try done; simpl; lia.
Qed.

(** Only the advice note carries a fix-it. *)
Lemma memberDiagnostics_fixIts this storage type isEnum :
  Forall (λ d, diag_id d = add_inverse ∨ diag_fixIts d = [])
    (memberDiagnostics this storage type isEnum).
Proof.
  unfold memberDiagnostics. apply List.Forall_cons; [by right|].
  apply Forall_app. split.
  - destruct (CanAddInverse this); [|done].
    apply List.Forall_cons; [|done]. left. apply adviceNote_id.
  - eapply Forall_impl; [apply originNotes_ids|]. simpl. tauto.
Qed.

Lemma checkDiagnostics_fixIts dc conformance ip :
  Forall (λ d, diag_id d = add_inverse ∨ diag_fixIts d = [])
    (checkDiagnostics dc conformance ip).
Proof.
  unfold checkDiagnostics. apply Forall_app. split.
  - destruct (negb _ || _); [|done]. unfold contradictionDiagnostics.
    destruct conformance; [|done]. destruct (_ && _); [|done].
    apply List.Forall_cons; [by right|done].
  - destruct (isa ClassDecl _); [done|]. apply Forall_app. split.
    + unfold destructorDiagnostics. destruct ip; [|done].
      destruct (getValueTypeDestructor _); [|done].
      apply List.Forall_cons; [by right|].
      destruct (canAddInverse _ _ _); [|done].
      apply List.Forall_cons; [|done]. left. apply adviceNote_id.
    + destruct (storageDiagnostics_cases (storageChecker dc conformance ip) dc
                  (getSelfNominalTypeDecl dc))
        as [->|(storage & type & isEnum & _ & ->)]; [done|].
      apply memberDiagnostics_fixIts.
Qed.

Lemma filter_nil_Forall {A} (P : A -> Prop) `{!∀ x, Decision (P x)} (l : list A) :
  filter P l = [] -> Forall (λ x, ¬ P x) l.
Proof.
  induction l as [|x l IH]; [done|].
  rewrite filter_cons. case_decide; [done|].
  intros Hnil. apply List.Forall_cons; auto.
Qed.

Lemma contradictionDiagnostics_length nominalDecl conformance ip :
  length (contradictionDiagnostics nominalDecl conformance ip) ≤ 1.
Proof.
  unfold contradictionDiagnostics.
  destruct conformance; [|simpl; lia]. destruct (_ && _); simpl; lia.
Qed.

Lemma destructorDiagnostics_filter_other id nominalDecl conformance ip :
  id ≠ copyable_illegal_deinit -> id ≠ add_inverse ->
  filter (λ d, diag_id d = id) (destructorDiagnostics nominalDecl conformance ip)
  = [].
Proof.
  intros Hne1 Hne2. rewrite destructorDiagnostics_filter.
  destruct ip; [|done]. destruct (getValueTypeDestructor _); [|done].
  rewrite !bool_decide_eq_false_2 by done. by rewrite andb_false_r.
Qed.

Lemma destructorDiagnostics_filter_length id nominalDecl conformance ip :
  id ≠ add_inverse ->
  length (filter (λ d, diag_id d = id)
            (destructorDiagnostics nominalDecl conformance ip)) ≤ 1.
Proof.
  intros Hne. rewrite destructorDiagnostics_filter.
  destruct ip; [|simpl; lia]. destruct (getValueTypeDestructor _); [|simpl; lia].
  rewrite (bool_decide_eq_false_2 (id = add_inverse)) by done.
  rewrite andb_false_r, app_nil_r. case_bool_decide; simpl; lia.
Qed.

Lemma storageDiagnostics_filter_other id this dc nominal :
  id ≠ inverse_type_member_in_conforming_type -> id ≠ add_inverse ->
  id ≠ note_inverse_preventing_conformance ->
  id ≠ note_inverse_preventing_conformance_explicit ->
  filter (λ d, diag_id d = id) (storageDiagnostics this dc nominal) = [].
Proof.
  intros Hne1 Hne2 Hne3 Hne4.
  destruct (storageDiagnostics_cases this dc nominal)
    as [->|(storage & type & isEnum & _ & ->)]; [done|].
  rewrite memberDiagnostics_filter by done.
  rewrite !bool_decide_eq_false_2 by done. by rewrite andb_false_r.
Qed.

(** ** The claims *)

(** C1, as the code has it.  In a check for [Escapable], the per-member
    predicate reports a member exactly when the member's resolved type is
    not in an error state and is not [Escapable]; it then emits the
    storage violation for that member, anchored on the member with its
    type and the variant-payload flag, and it emits nothing otherwise. *)
Theorem check_Escapable_reports_nonescapable this storage type isEnum :
  IP this = Escapable ->
  ∃ stop ds,
    emits (check this storage type isEnum) stop ds
    ∧ (stop = true ↔ hasError type = false ∧ isEscapable type = false)
    ∧ storageViolations ds
      = (if stop then [memberViolation this storage type isEnum] else [])
    ∧ (stop = false -> ds = []).
Proof.
  intros Hip.
  exists (memberFails this storage type isEnum). eexists.
  split; [apply check_emits|].
  rewrite memberFails_eq, Hip.
  destruct (hasError type), (isEscapable type); simpl.
  1-3: split_and!; [split; [done|by intros [? ?]]|done|done].
  split_and!; [done| |done].
  unfold storageViolations. rewrite memberDiagnostics_filter by done.
  simpl. by rewrite andb_false_r.
Qed.

Lemma check_Escapable_reports_nonescapable_witness :
  IP (storageChecker (ex_dc ex_E) ex_EscapableConformance Escapable) = Escapable
  ∧ ∃ stop ds,
    emits (check (storageChecker (ex_dc ex_E) ex_EscapableConformance Escapable)
             (OfEnumElementDecl (ex_element "a" (Some ex_Span))) ex_Span true)
      stop ds
    ∧ (stop = true ↔ hasError ex_Span = false ∧ isEscapable ex_Span = false)
    ∧ storageViolations ds
      = (if stop
         then [memberViolation
                 (storageChecker (ex_dc ex_E) ex_EscapableConformance Escapable)
                 (OfEnumElementDecl (ex_element "a" (Some ex_Span))) ex_Span true]
         else [])
    ∧ (stop = false -> ds = []).
Proof.
  split; [reflexivity|].
  apply (check_Escapable_reports_nonescapable
           (storageChecker (ex_dc ex_E) ex_EscapableConformance Escapable)).
  reflexivity.
Defined.

(** C1, as stated, fails: [Int] has the [Escapable] capability, yet in a
    check of [struct Pair { var n: Int }] for [Escapable] the predicate
    returns false for [n] and emits nothing. *)
Lemma check_Escapable_member_not_reported :
  IP (storageChecker (ex_dc ex_Pair) ex_EscapableConformance Escapable) = Escapable
  ∧ hasError ex_Int = false
  ∧ isEscapable ex_Int = true
  ∧ check (storageChecker (ex_dc ex_Pair) ex_EscapableConformance Escapable)
      (OfVarDecl (ex_var "n" ex_Int)) ex_Int false []
    = Returned false [].
Proof. split_and!; reflexivity. Qed.

(** C2, as the code has it.  For an enum with a case element whose payload
    type is not in an error state and lacks [Escapable], a check of an
    [Escapable] conformance (unconditional or not) emits exactly one
    storage violation; it is tagged as an enum payload and anchored on the
    first such element in declaration order, hence on the given element
    when no earlier element qualifies. *)
Theorem enum_payload_not_Escapable_one_violation dc conformance element type :
  let nominal := getSelfNominalTypeDecl dc in
  let this := storageChecker dc conformance Escapable in
  assertionsHold dc conformance Escapable = true ->
  isa EnumDecl nominal = true ->
  element ∈ allElements nominal ->
  getArgumentInterfaceType element = Some type ->
  hasError (mapTypeIntoContext dc type) = false ->
  isEscapable (mapTypeIntoContext dc type) = false ->
  ∃ pre first firstType post ds,
    allElements nominal = pre ++ first :: post
    ∧ Forall (λ e, elementFails this dc e = false) pre
    ∧ getArgumentInterfaceType first = Some firstType
    ∧ hasError (mapTypeIntoContext dc firstType) = false
    ∧ isEscapable (mapTypeIntoContext dc firstType) = false
    ∧ emits (checkEscapableConformance dc conformance) tt ds
    ∧ storageViolations ds
      = [mkDiagnostic (AtValueDecl (OfEnumElementDecl first))
           inverse_type_member_in_conforming_type
           [ArgType (mapTypeIntoContext dc firstType); ArgBool true;
            ArgIdentifier (elt_name first); ArgNominal (nom_name nominal);
            ArgString "Escapable"]]
    ∧ (∀ pre' post',
         allElements nominal = pre' ++ element :: post' ->
         Forall (λ e, elementFails this dc e = false) pre' ->
         first = element).
Proof.
  intros nominal this Hassert Henum Hin Harg Herr Hesc.
  destruct (isa_EnumDecl _ Henum) as [Hstruct Hclass].
  assert (elementFails this dc element = true) as Hfails.
  { unfold elementFails. rewrite Harg, memberFails_eq, Herr. simpl.
    by rewrite Hesc. }
  destruct (find (elementFails this dc) (allElements nominal)) as [first|] eqn:Hfind.
  2: { apply list_elem_of_In in Hin.
       rewrite (find_none _ _ Hfind _ Hin) in Hfails. done. }
  destruct (find_first _ _ _ Hfind) as (pre & post & Hsplit & Hpre & Hfirst).
  pose proof Hfirst as Hfirst'. unfold elementFails in Hfirst'.
  destruct (getArgumentInterfaceType first) as [firstType|] eqn:HfirstArg; [|done].
  rewrite memberFails_eq in Hfirst'. simpl in Hfirst'.
  apply andb_prop in Hfirst' as [Herr1%negb_true_iff Hesc1%negb_true_iff].
  exists pre, first, firstType, post, (checkDiagnostics dc conformance Escapable).
  split_and!; try done.
  - by apply checkInvertibleConformanceCommon_emits.
  - rewrite checkDiagnostics_storageViolations by done.
    unfold storageDiagnostics. fold nominal this. rewrite Hstruct, Hclass, Henum.
    simpl. unfold elementsDiagnostics. rewrite Hfind, HfirstArg.
    unfold storageViolations. rewrite memberDiagnostics_filter by done.
    simpl. by rewrite andb_false_r.
  - intros pre' post' Hsplit' Hpre'.
    rewrite Hsplit', (find_at_first _ _ _ _ Hpre' Hfails) in Hfind.
    by injection Hfind.
Qed.

Lemma enum_payload_not_Escapable_one_violation_witness :
  ∃ pre first firstType post ds,
    allElements ex_E = pre ++ first :: post
    ∧ Forall (λ e, elementFails
                     (storageChecker (ex_dc ex_E) ex_EscapableConformance Escapable)
                     (ex_dc ex_E) e = false) pre
    ∧ getArgumentInterfaceType first = Some firstType
    ∧ hasError firstType = false
    ∧ isEscapable firstType = false
    ∧ emits (checkEscapableConformance (ex_dc ex_E) ex_EscapableConformance) tt ds
    ∧ storageViolations ds
      = [mkDiagnostic (AtValueDecl (OfEnumElementDecl first))
           inverse_type_member_in_conforming_type
           [ArgType firstType; ArgBool true; ArgIdentifier (elt_name first);
            ArgNominal "E"; ArgString "Escapable"]]
    ∧ (∀ pre' post',
         allElements ex_E = pre' ++ ex_element "a" (Some ex_Span) :: post' ->
         Forall (λ e, elementFails
                        (storageChecker (ex_dc ex_E) ex_EscapableConformance
                           Escapable) (ex_dc ex_E) e = false) pre' ->
         first = ex_element "a" (Some ex_Span)).
Proof.
  apply (enum_payload_not_Escapable_one_violation (ex_dc ex_E)
           ex_EscapableConformance (ex_element "a" (Some ex_Span)) ex_Span).
  - reflexivity.
  - reflexivity.
  - vm_compute. apply list_elem_of_further, list_elem_of_here.
  - reflexivity.
  - reflexivity.
  - reflexivity.
Defined.

(** C2, as stated, fails: the payload [Span<Missing>] of the only case of
    [enum F] lacks [Escapable], yet the check of the unconditional
    [Escapable] conformance of [F] emits no diagnostic at all, because the
    payload type is in an error state. *)
Lemma enum_payload_in_error_no_violation :
  isEscapable ex_SpanOfMissing = false
  ∧ hasUnconditionalConformance ex_EscapableConformance = true
  ∧ checkEscapableConformance (ex_dc ex_F) ex_EscapableConformance []
    = Returned tt [].
Proof. split_and!; reflexivity. Qed.

(** C3.  A check of a class for either protocol emits no storage violation
    and no destructor violation, whatever the class stores and whether or
    not it has a deinit.  All it can emit is the one contradiction
    diagnostic, and that only when the [MoveOnlyClasses] feature is on. *)
Theorem class_exempt_from_storage_and_destructor_rules dc conformance ip :
  let nominal := getSelfNominalTypeDecl dc in
  isa ClassDecl nominal = true ->
  isSpecificProtocol (getProtocol conformance) (getKnownProtocolKind ip) = true ->
  ∃ ds,
    emits (checkInvertibleConformanceCommon dc conformance ip) tt ds
    ∧ storageViolations ds = []
    ∧ destructorViolations ds = []
    ∧ ds = (if hasFeature (LangOpts (getASTContext nominal)) MoveOnlyClasses
            then contradictionDiagnostics nominal conformance ip else [])
    ∧ contradictions ds = ds
    ∧ length ds ≤ 1
    ∧ (hasFeature (LangOpts (getASTContext nominal)) MoveOnlyClasses = false ->
       ds = []).
Proof.
  intros nominal Hclass Hproto.
  assert (assertionsHold dc conformance ip = true) as Hassert.
  { unfold assertionsHold. fold nominal. rewrite Hproto, Hclass.
    by rewrite !orb_true_r. }
  exists (checkDiagnostics dc conformance ip).
  split; [by apply checkInvertibleConformanceCommon_emits|].
  unfold storageViolations, destructorViolations, contradictions.
  rewrite !checkDiagnostics_filter.
  unfold checkDiagnostics. fold nominal. rewrite Hclass. simpl.
  rewrite !app_nil_r.
  destruct (hasFeature _ _); simpl; [|split_and!; done || lia].
  split_and!; try done.
  unfold contradictionDiagnostics.
  destruct conformance; [|simpl; lia].
  destruct (_ && _); simpl; lia.
Qed.

Lemma class_exempt_from_storage_and_destructor_rules_witness :
  ∃ ds,
    emits (checkInvertibleConformanceCommon (ex_dc ex_Ref) ex_CopyableConformance
             Copyable) tt ds
    ∧ storageViolations ds = []
    ∧ destructorViolations ds = []
    ∧ ds = (if hasFeature (LangOpts (getASTContext ex_Ref)) MoveOnlyClasses
            then contradictionDiagnostics ex_Ref ex_CopyableConformance Copyable
            else [])
    ∧ contradictions ds = ds
    ∧ length ds ≤ 1
    ∧ (hasFeature (LangOpts (getASTContext ex_Ref)) MoveOnlyClasses = false ->
       ds = []).
Proof.
  apply (class_exempt_from_storage_and_destructor_rules (ex_dc ex_Ref)
           ex_CopyableConformance Copyable); reflexivity.
Defined.

(** C4.  When two or more stored properties of a struct fail the check,
    one call emits exactly one storage violation; it names the first
    failing property in declaration order, and the walk hands the
    callbacks the properties up to that one and none after it. *)
Theorem struct_storage_walk_short_circuits dc conformance ip :
  let nominal := getSelfNominalTypeDecl dc in
  let this := storageChecker dc conformance ip in
  assertionsHold dc conformance ip = true ->
  isa StructDecl nominal = true ->
  2 ≤ length (filter (λ p, propertyFails this dc p = true)
                (getStoredProperties nominal)) ->
  ∃ pre first post ds,
    getStoredProperties nominal = pre ++ first :: post
    ∧ Forall (λ p, propertyFails this dc p = false) pre
    ∧ propertyFails this dc first = true
    ∧ emits (checkInvertibleConformanceCommon dc conformance ip) tt ds
    ∧ storageViolations ds
      = [mkDiagnostic (AtValueDecl (OfVarDecl first))
           inverse_type_member_in_conforming_type
           [ArgType (propertyType dc first); ArgBool false;
            ArgIdentifier (var_name first); ArgNominal (nom_name nominal);
            ArgString (getProtocolName (getKnownProtocolKind ip))]]
    ∧ examined this dc nominal = map OfVarDecl (pre ++ [first]).
Proof.
  intros nominal this Hassert Hstruct Hmany.
  destruct (isa_StructDecl _ Hstruct) as [Henum Hclass].
  destruct (find (propertyFails this dc) (getStoredProperties nominal))
    as [first|] eqn:Hfind.
  2: { rewrite (find_none_filter _ _ Hfind) in Hmany. simpl in Hmany. lia. }
  destruct (find_first _ _ _ Hfind) as (pre & post & Hsplit & Hpre & Hfirst).
  exists pre, first, post, (checkDiagnostics dc conformance ip).
  split_and!; try done.
  - by apply checkInvertibleConformanceCommon_emits.
  - rewrite checkDiagnostics_storageViolations by done.
    unfold storageDiagnostics. fold nominal this. rewrite Hstruct. simpl.
    unfold propertiesDiagnostics. rewrite Hfind.
    unfold storageViolations. rewrite memberDiagnostics_filter by done.
    simpl. by rewrite andb_false_r.
  - rewrite examined_properties by done.
    by rewrite Hsplit, (uptoFirst_at_first _ _ _ _ Hpre Hfirst).
Qed.

Lemma struct_storage_walk_short_circuits_witness :
  ∃ pre first post ds,
    getStoredProperties ex_Box = pre ++ first :: post
    ∧ Forall (λ p, propertyFails
                     (storageChecker (ex_dc ex_Box) ex_CopyableConformance Copyable)
                     (ex_dc ex_Box) p = false) pre
    ∧ propertyFails (storageChecker (ex_dc ex_Box) ex_CopyableConformance Copyable)
        (ex_dc ex_Box) first = true
    ∧ emits (checkInvertibleConformanceCommon (ex_dc ex_Box)
               ex_CopyableConformance Copyable) tt ds
    ∧ storageViolations ds
      = [mkDiagnostic (AtValueDecl (OfVarDecl first))
           inverse_type_member_in_conforming_type
           [ArgType (propertyType (ex_dc ex_Box) first); ArgBool false;
            ArgIdentifier (var_name first); ArgNominal "Box";
            ArgString "Copyable"]]
    ∧ examined (storageChecker (ex_dc ex_Box) ex_CopyableConformance Copyable)
        (ex_dc ex_Box) ex_Box
      = map OfVarDecl (pre ++ [first]).
Proof.
  apply (struct_storage_walk_short_circuits (ex_dc ex_Box)
           ex_CopyableConformance Copyable).
  - reflexivity.
  - reflexivity.
  - vm_compute. lia.
Defined.

(** C5, as the code has it.  Let a struct or an enum, or a class under the
    [MoveOnlyClasses] feature, suppress the protocol under test, in its
    inheritance clause or through the matching deprecated attribute, and
    let the conformance under test be unconditional.  Then one call emits
    exactly one contradiction diagnostic, first of all and at the location
    of the conformance, whatever the storage of the declaration holds; no
    advice to add the inverse comes with any diagnostic of the call. *)
Theorem suppressed_and_unconditional_one_contradiction dc normalConf ip :
  let nominal := getSelfNominalTypeDecl dc in
  assertionsHold dc (Normal normalConf) ip = true ->
  isa ClassDecl nominal = false
  ∨ hasFeature (LangOpts (getASTContext nominal)) MoveOnlyClasses = true ->
  ip ∈ inheritedInverses nominal
  ∨ (ip = Copyable ∧ hasMoveOnlyAttr (getAttrs nominal) = true)
  ∨ (ip = Escapable ∧ hasNonEscapableAttr (getAttrs nominal) = true) ->
  getConditionalRequirements normalConf = [] ->
  ∃ rest,
    emits (checkInvertibleConformanceCommon dc (Normal normalConf) ip) tt
      (mkDiagnostic (AtLoc (getLoc normalConf)) inverse_but_also_conforms
         [ArgNominal (nom_name nominal);
          ArgString (getProtocolName (getKnownProtocolKind ip))] :: rest)
    ∧ contradictions rest = []
    ∧ inverseAdvice rest = [].
Proof.
  intros nominal Hassert Hgate Hsuppressed Huncond.
  assert (hasExplicitInverse nominal ip = true) as Hinv.
  { apply hasExplicitInverse_true, elem_of_inverses, Hsuppressed. }
  assert (hasUnconditionalConformance (Normal normalConf) = true) as Hunc.
  { unfold hasUnconditionalConformance. simpl. by rewrite Huncond. }
  assert (canAddInverse nominal (Normal normalConf) ip = false) as Hcan.
  { unfold canAddInverse. by rewrite Hinv. }
  pose proof (checkInvertibleConformanceCommon_emits _ _ _ Hassert) as Hemits.
  unfold checkDiagnostics in Hemits. fold nominal in Hemits.
  assert (negb (isa ClassDecl nominal)
          || hasFeature (LangOpts (getASTContext nominal)) MoveOnlyClasses = true)
    as Hgate'.
  { destruct Hgate as [-> | ->]; [done|by rewrite orb_true_r]. }
  rewrite Hgate' in Hemits. unfold contradictionDiagnostics in Hemits.
  rewrite Hinv, Hunc in Hemits. simpl in Hemits.
  eexists. split; [exact Hemits|].
  destruct (isa ClassDecl nominal); [done|].
  unfold contradictions, inverseAdvice.
  rewrite !filter_app, !destructorDiagnostics_filter. fold nominal.
  rewrite Hcan. simpl.
  assert (∀ id, id = inverse_but_also_conforms ∨ id = add_inverse ->
            filter (λ d, diag_id d = id)
              (storageDiagnostics (storageChecker dc (Normal normalConf) ip) dc
                 nominal) = []) as Hstorage.
  { intros id Hid.
    destruct (storageDiagnostics_cases (storageChecker dc (Normal normalConf) ip)
                dc nominal) as [->|(storage & type & isEnum & _ & ->)]; [done|].
    rewrite memberDiagnostics_filter by (destruct Hid as [-> | ->]; done).
    simpl. fold nominal. rewrite Hcan. simpl.
    by destruct Hid as [-> | ->]. }
  rewrite !Hstorage by tauto.
  destruct ip; [|done].
  by destruct (getValueTypeDestructor nominal).
Qed.

Lemma suppressed_and_unconditional_one_contradiction_witness :
  ∃ rest,
    emits (checkInvertibleConformanceCommon (ex_dc ex_Token) ex_CopyableConformance
             Copyable) tt
      (mkDiagnostic (AtLoc 20%N) inverse_but_also_conforms
         [ArgNominal "Token"; ArgString "Copyable"] :: rest)
    ∧ contradictions rest = []
    ∧ inverseAdvice rest = [].
Proof.
  apply (suppressed_and_unconditional_one_contradiction (ex_dc ex_Token)
           {| normal_getProtocol := ex_CopyableProto; getLoc := 20%N;
              getConditionalRequirements := [] |} Copyable).
  - reflexivity.
  - left. reflexivity.
  - left. vm_compute. reflexivity.
  - reflexivity.
Defined.

(** C5, as stated, fails: [class Ref: ~Copyable] suppresses [Copyable] and
    its [Copyable] conformance is unconditional, yet without the
    [MoveOnlyClasses] feature the check emits no diagnostic at all. *)
Lemma class_without_feature_no_contradiction :
  hasExplicitInverse ex_Ref Copyable = true
  ∧ hasUnconditionalConformance ex_CopyableConformance = true
  ∧ assertionsHold (ex_dc ex_Ref) ex_CopyableConformance Copyable = true
  ∧ checkCopyableConformance (ex_dc ex_Ref) ex_CopyableConformance []
    = Returned tt [].
Proof. split_and!; reflexivity. Qed.

(** C6.  A struct or an enum with a deinit gets exactly one destructor
    violation, anchored at the deinit, when checked for [Copyable], and
    none when checked for [Escapable].  The [Copyable] check still walks
    the storage afterwards: the call emits the contradiction diagnostics,
    then the destructor violation with its advice, then all that the
    storage walk emits; with conforming storage that is nothing. *)
Theorem destructor_rule_only_for_Copyable dc copyableConf escapableConf deinit :
  let nominal := getSelfNominalTypeDecl dc in
  let this := storageChecker dc copyableConf Copyable in
  isa StructDecl nominal = true ∨ isa EnumDecl nominal = true ->
  getValueTypeDestructor nominal = Some deinit ->
  isSpecificProtocol (getProtocol copyableConf) KP_Copyable = true ->
  isSpecificProtocol (getProtocol escapableConf) KP_Escapable = true ->
  ∃ ds ds',
    emits (checkCopyableConformance dc copyableConf) tt ds
    ∧ emits (checkEscapableConformance dc escapableConf) tt ds'
    ∧ destructorViolations ds
      = [mkDiagnostic (AtDestructor deinit) copyable_illegal_deinit
           [ArgNominal (nom_name nominal)]]
    ∧ destructorViolations ds' = []
    ∧ ds = contradictionDiagnostics nominal copyableConf Copyable
           ++ destructorDiagnostics nominal copyableConf Copyable
           ++ emitted (visit this dc nominal)
    ∧ storageViolations ds = storageViolations (emitted (visit this dc nominal))
    ∧ (Forall (λ p, propertyFails this dc p = false) (getStoredProperties nominal) ->
       Forall (λ e, elementFails this dc e = false) (allElements nominal) ->
       emitted (visit this dc nominal) = []).
Proof.
  intros nominal this Hkind Hdeinit HprotoC HprotoE.
  assert (isa ClassDecl nominal = false) as Hclass.
  { destruct Hkind as [H|H]; [apply isa_StructDecl in H|apply isa_EnumDecl in H];
      tauto. }
  assert (isa StructDecl nominal || isa EnumDecl nominal || isa ClassDecl nominal
          = true) as Hkinds.
  { destruct Hkind as [-> | ->]; [done|by rewrite orb_true_r]. }
  assert (emitted (visit this dc nominal) = storageDiagnostics this dc nominal)
    as Hwalk.
  { destruct (visit_emits this dc nominal) as [stop Hvisit].
    by apply emits_emitted in Hvisit. }
  exists (checkDiagnostics dc copyableConf Copyable),
         (checkDiagnostics dc escapableConf Escapable).
  split_and!.
  - apply checkInvertibleConformanceCommon_emits. unfold assertionsHold.
    fold nominal. simpl. by rewrite HprotoC, Hkinds.
  - apply checkInvertibleConformanceCommon_emits. unfold assertionsHold.
    fold nominal. simpl. by rewrite HprotoE, Hkinds.
  - unfold destructorViolations.
    rewrite checkDiagnostics_filter, destructorDiagnostics_filter.
    fold nominal. rewrite Hclass, Hdeinit. simpl.
    rewrite andb_false_r. simpl.
    destruct (storageDiagnostics_cases (storageChecker dc copyableConf Copyable)
                dc nominal) as [->|(storage & type & isEnum & _ & ->)]; [done|].
    rewrite memberDiagnostics_filter by done. simpl.
    by rewrite andb_false_r.
  - unfold destructorViolations.
    rewrite checkDiagnostics_filter, destructorDiagnostics_filter.
    fold nominal. rewrite Hclass. simpl.
    destruct (storageDiagnostics_cases (storageChecker dc escapableConf Escapable)
                dc nominal) as [->|(storage & type & isEnum & _ & ->)]; [done|].
    rewrite memberDiagnostics_filter by done. simpl.
    by rewrite andb_false_r.
  - rewrite Hwalk. unfold checkDiagnostics. fold nominal. by rewrite Hclass.
  - rewrite Hwalk. by apply checkDiagnostics_storageViolations.
  - intros Hprops Hels. rewrite Hwalk.
    unfold storageDiagnostics, propertiesDiagnostics, elementsDiagnostics.
    destruct (isa StructDecl nominal || isa ClassDecl nominal).
    { destruct (find _ _) as [p|] eqn:Hfind; [|done].
      apply find_some in Hfind as [Hin Hp].
      rewrite List.Forall_forall in Hprops.
      by rewrite (Hprops _ Hin) in Hp. }
    destruct (isa EnumDecl nominal); [|done].
    destruct (find _ _) as [e|] eqn:Hfind; [|done].
    apply find_some in Hfind as [Hin He].
    rewrite List.Forall_forall in Hels.
    by rewrite (Hels _ Hin) in He.
Qed.

Lemma destructor_rule_only_for_Copyable_witness :
  ∃ ds ds',
    emits (checkCopyableConformance (ex_dc ex_Guard) ex_CopyableConformance) tt ds
    ∧ emits (checkEscapableConformance (ex_dc ex_Guard) ex_EscapableConformance)
        tt ds'
    ∧ destructorViolations ds
      = [mkDiagnostic (AtDestructor {| deinit_loc := 30%N |})
           copyable_illegal_deinit [ArgNominal "Guard"]]
    ∧ destructorViolations ds' = []
    ∧ ds = contradictionDiagnostics ex_Guard ex_CopyableConformance Copyable
           ++ destructorDiagnostics ex_Guard ex_CopyableConformance Copyable
           ++ emitted (visit (storageChecker (ex_dc ex_Guard)
                                ex_CopyableConformance Copyable)
                         (ex_dc ex_Guard) ex_Guard)
    ∧ storageViolations ds
      = storageViolations
          (emitted (visit (storageChecker (ex_dc ex_Guard)
                             ex_CopyableConformance Copyable)
                      (ex_dc ex_Guard) ex_Guard))
    ∧ (Forall (λ p, propertyFails
                      (storageChecker (ex_dc ex_Guard) ex_CopyableConformance
                         Copyable) (ex_dc ex_Guard) p = false)
         (getStoredProperties ex_Guard) ->
       Forall (λ e, elementFails
                      (storageChecker (ex_dc ex_Guard) ex_CopyableConformance
                         Copyable) (ex_dc ex_Guard) e = false)
         (allElements ex_Guard) ->
       emitted (visit (storageChecker (ex_dc ex_Guard) ex_CopyableConformance
                         Copyable) (ex_dc ex_Guard) ex_Guard) = []).
Proof.
  apply (destructor_rule_only_for_Copyable (ex_dc ex_Guard)
           ex_CopyableConformance ex_EscapableConformance {| deinit_loc := 30%N |}).
  - left. reflexivity.
  - reflexivity.
  - reflexivity.
  - reflexivity.
Defined.

(** C7.  [canAddInverse] is true exactly when the protocol is not among
    the inverses of the nominal and the conformance is not unconditional.
    With [canAddInverse] false the advice emits nothing, and in a whole
    call no diagnostic suggests the inverse or carries a fix-it; with it
    true the advice emits the [add_inverse] note on the nominal with its
    one fix-it, and a whole call emits one such note for each destructor
    or storage violation. *)
Theorem canAddInverse_gates_advice dc conformance ip :
  let nominal := getSelfNominalTypeDecl dc in
  let can := canAddInverse nominal conformance ip in
  (can = true ↔
     (ip ∉ inverses nominal) ∧ hasUnconditionalConformance conformance = false)
  ∧ emits (emitAdviceToApplyInverseAfter ip false nominal) tt []
  ∧ (∃ note,
       emits (emitAdviceToApplyInverseAfter ip true nominal) tt [note]
       ∧ diag_id note = add_inverse
       ∧ diag_anchor note = AtNominal (nom_name nominal)
       ∧ diag_fixIts note =
           [match getInherited nominal with
            | [] => fixItInsert (getBracesStart nominal)
                      (": ~" +:+ getProtocolName (getKnownProtocolKind ip))
            | _ :: _ => fixItInsertAfter (getEndLoc (getInherited nominal))
                      (", ~" +:+ getProtocolName (getKnownProtocolKind ip))
            end])
  ∧ (assertionsHold dc conformance ip = true ->
     ∃ ds,
       emits (checkInvertibleConformanceCommon dc conformance ip) tt ds
       ∧ (can = false ->
          inverseAdvice ds = [] ∧ Forall (λ d, diag_fixIts d = []) ds)
       ∧ (can = true ->
          length (inverseAdvice ds)
          = length (destructorViolations ds) + length (storageViolations ds))
       ∧ Forall (λ d, length (diag_fixIts d) = 1) (inverseAdvice ds)).
Proof.
  intros nominal can. split_and!.
  - unfold can, canAddInverse.
    rewrite andb_true_iff, !negb_true_iff.
    rewrite <- not_true_iff_false, hasExplicitInverse_true. done.
  - apply (emitAdvice_emits ip false nominal).
  - exists (adviceNote ip nominal). split_and!.
    + apply (emitAdvice_emits ip true nominal).
    + apply adviceNote_id.
    + unfold adviceNote, addConformanceFixIt. by destruct (getInherited nominal).
    + apply adviceNote_fixIts.
  - intros Hassert. exists (checkDiagnostics dc conformance ip).
    split; [by apply checkInvertibleConformanceCommon_emits|].
    assert (inverseAdvice (checkDiagnostics dc conformance ip)
            = if can then
                repeat (adviceNote ip nominal)
                  (length (destructorViolations (checkDiagnostics dc conformance ip))
                   + length (storageViolations (checkDiagnostics dc conformance ip)))
              else []) as Hadvice.
    { unfold inverseAdvice, destructorViolations, storageViolations.
      rewrite !checkDiagnostics_filter. fold nominal.
      rewrite !andb_false_r. simpl.
      destruct (isa ClassDecl nominal); [by destruct can|].
      rewrite !destructorDiagnostics_filter. fold nominal can.
      destruct (storageDiagnostics_cases (storageChecker dc conformance ip) dc
                  nominal) as [->|(storage & type & isEnum & _ & ->)].
      - simpl. rewrite !app_nil_r.
        destruct ip; [|by destruct can].
        destruct (getValueTypeDestructor nominal); [|by destruct can].
        simpl. by destruct can.
      - rewrite !memberDiagnostics_filter by done. simpl. fold nominal can.
        rewrite !andb_false_r, !andb_true_r.
        destruct ip; [|by destruct can].
        destruct (getValueTypeDestructor nominal); simpl; by destruct can. }
    split_and!.
    + intros Hcan. rewrite Hcan in Hadvice. split; [done|].
      pose proof (checkDiagnostics_fixIts dc conformance ip) as Hfix.
      apply filter_nil_Forall in Hadvice.
      eapply Forall_impl; [apply Forall_and; split; [apply Hfix|apply Hadvice]|].
      simpl. tauto.
    + intros Hcan. rewrite Hadvice, Hcan. apply repeat_length.
    + rewrite Hadvice. destruct can; [|done].
      apply Forall_forall. intros d Hd%list_elem_of_In%repeat_spec. subst d.
      by rewrite adviceNote_fixIts.
Qed.

Lemma canAddInverse_gates_advice_witness :
  assertionsHold (ex_dc ex_Guard) ex_ConditionalCopyable Copyable = true
  ∧ canAddInverse ex_Guard ex_ConditionalCopyable Copyable = true
  ∧ ∃ ds,
      emits (checkInvertibleConformanceCommon (ex_dc ex_Guard)
               ex_ConditionalCopyable Copyable) tt ds
      ∧ (canAddInverse ex_Guard ex_ConditionalCopyable Copyable = false ->
         inverseAdvice ds = [] ∧ Forall (λ d, diag_fixIts d = []) ds)
      ∧ (canAddInverse ex_Guard ex_ConditionalCopyable Copyable = true ->
         length (inverseAdvice ds)
         = length (destructorViolations ds) + length (storageViolations ds))
      ∧ Forall (λ d, length (diag_fixIts d) = 1) (inverseAdvice ds).
Proof.
  split; [reflexivity|]. split; [reflexivity|].
  apply (canAddInverse_gates_advice (ex_dc ex_Guard) ex_ConditionalCopyable
           Copyable).
  reflexivity.
Defined.

(** C8.  The inverses of a nominal are the union of the inverses written
    in its inheritance clause, of [Copyable] when it carries the move-only
    attribute and of [Escapable] when it carries the non-escapable
    attribute, and of nothing else; they are empty exactly when the clause
    has no inverse and neither attribute is present.  [inverses] is a
    total function: computing the set cannot fail. *)
Theorem inverses_union_of_clause_and_attributes nominalDecl :
  inverses nominalDecl
  = inheritedInverses nominalDecl
    ∪ (if hasMoveOnlyAttr (getAttrs nominalDecl) then {[ Copyable ]} else ∅)
    ∪ (if hasNonEscapableAttr (getAttrs nominalDecl) then {[ Escapable ]} else ∅)
  ∧ (∀ ip, contains (inverses nominalDecl) ip = true ↔
       ip ∈ inheritedInverses nominalDecl
       ∨ (ip = Copyable ∧ hasMoveOnlyAttr (getAttrs nominalDecl) = true)
       ∨ (ip = Escapable ∧ hasNonEscapableAttr (getAttrs nominalDecl) = true))
  ∧ (inverses nominalDecl = ∅ ↔
       inheritedInverses nominalDecl = ∅
       ∧ hasMoveOnlyAttr (getAttrs nominalDecl) = false
       ∧ hasNonEscapableAttr (getAttrs nominalDecl) = false).
Proof.
  split_and!.
  - unfold inverses.
    destruct (hasMoveOnlyAttr _), (hasNonEscapableAttr _);
      by rewrite ?(right_id_L ∅ (∪)).
  - intros ip. unfold contains. rewrite bool_decide_eq_true.
    apply elem_of_inverses.
  - unfold inverses.
    destruct (hasMoveOnlyAttr _), (hasNonEscapableAttr _); split.
    all: try (intros (_ & ? & ?); done).
    all: try (intros (? & _ & _); done).
    all: intros Hempty.
    1-3: exfalso.
    + apply (not_elem_of_empty (C:=gset InvertibleProtocolKind) Escapable).
      rewrite <- Hempty. apply elem_of_union_r, elem_of_singleton. done.
    + apply (not_elem_of_empty (C:=gset InvertibleProtocolKind) Copyable).
      rewrite <- Hempty. apply elem_of_union_r, elem_of_singleton. done.
    + apply (not_elem_of_empty (C:=gset InvertibleProtocolKind) Escapable).
      rewrite <- Hempty. apply elem_of_union_r, elem_of_singleton. done.
    + done.
Qed.

(** C9.  For a member whose resolved type is in an error state the
    predicate returns false and emits nothing, whatever the protocol; the
    walk over stored properties or over enum elements goes on as if the
    member were not there; and no storage violation of a whole call is
    about a type in an error state. *)
Theorem erroneous_member_is_skipped this storage type isEnum :
  hasError type = true ->
  emits (check this storage type isEnum) false []
  ∧ (∀ dc pre property post engine,
       propertyType dc property = type ->
       visitStoredProperties this dc (pre ++ property :: post) engine
       = visitStoredProperties this dc (pre ++ post) engine)
  ∧ (∀ dc pre element post payload engine,
       getArgumentInterfaceType element = Some payload ->
       mapTypeIntoContext dc payload = type ->
       visitElements this dc (pre ++ element :: post) engine
       = visitElements this dc (pre ++ post) engine)
  ∧ (∀ dc conformance ip,
       assertionsHold dc conformance ip = true ->
       ∃ ds,
         emits (checkInvertibleConformanceCommon dc conformance ip) tt ds
         ∧ Forall (λ d, ArgType type ∉ diag_args d) (storageViolations ds)).
Proof.
  intros Herr.
  assert (∀ this' storage' isEnum',
            emits (check this' storage' type isEnum') false []) as Hskip.
  { intros this' storage' isEnum'.
    pose proof (check_emits this' storage' type isEnum') as Hcheck.
    rewrite memberFails_eq, Herr in Hcheck. exact Hcheck. }
  split_and!.
  - apply Hskip.
  - intros dc pre property post engine Htype. revert engine.
    induction pre as [|p pre IH]; intros engine; simpl.
    + unfold mbind, Sema_bind. fold (propertyType dc property).
      rewrite Htype, (Hskip this (OfVarDecl property) false engine).
      by rewrite app_nil_r.
    + unfold mbind, Sema_bind.
      destruct (check this (OfVarDecl p) _ false engine) as [[|] engine'|];
        [done|apply IH|done].
  - intros dc pre element post payload engine Harg Htype. revert engine.
    induction pre as [|e pre IH]; intros engine; simpl.
    + rewrite Harg. unfold mbind, Sema_bind.
      rewrite Htype, (Hskip this (OfEnumElementDecl element) true engine).
      by rewrite app_nil_r.
    + destruct (getArgumentInterfaceType e) as [t|]; [|apply IH].
      unfold mbind, Sema_bind.
      destruct (check this (OfEnumElementDecl e) _ true engine) as [[|] engine'|];
        [done|apply IH|done].
  - intros dc conformance ip Hassert.
    exists (checkDiagnostics dc conformance ip).
    split; [by apply checkInvertibleConformanceCommon_emits|].
    unfold storageViolations.
    rewrite checkDiagnostics_filter, andb_false_r. simpl.
    destruct (isa ClassDecl _); [done|].
    rewrite destructorDiagnostics_filter.
    assert (filter (λ d, diag_id d = inverse_type_member_in_conforming_type)
              (storageDiagnostics (storageChecker dc conformance ip) dc
                 (getSelfNominalTypeDecl dc))
            = [] ∨ ∃ storage' type' isEnum',
                hasError type' = false
                ∧ filter (λ d, diag_id d = inverse_type_member_in_conforming_type)
                    (storageDiagnostics (storageChecker dc conformance ip) dc
                       (getSelfNominalTypeDecl dc))
                  = [memberViolation (storageChecker dc conformance ip)
                       storage' type' isEnum']) as Hstorage.
    { destruct (storageDiagnostics_cases (storageChecker dc conformance ip) dc
                  (getSelfNominalTypeDecl dc))
        as [->|(storage' & type' & isEnum' & Hfails & ->)]; [by left|].
      right. exists storage', type', isEnum'.
      rewrite memberFails_eq in Hfails.
      apply andb_prop in Hfails as [Hok%negb_true_iff _].
      split; [done|]. rewrite memberDiagnostics_filter by done.
      simpl. by rewrite andb_false_r. }
    assert (match ip with
            | Copyable =>
                match getValueTypeDestructor (getSelfNominalTypeDecl dc) with
                | Some deinit =>
                    (if bool_decide (inverse_type_member_in_conforming_type
                                     = copyable_illegal_deinit)
                     then [destructorViolation (getSelfNominalTypeDecl dc) deinit]
                     else [])
                    ++ (if canAddInverse (getSelfNominalTypeDecl dc) conformance ip
                           && bool_decide (inverse_type_member_in_conforming_type
                                           = add_inverse)
                        then [adviceNote ip (getSelfNominalTypeDecl dc)] else [])
                | None => []
                end
            | Escapable => []
            end = []) as ->.
    { destruct ip; [|done]. destruct (getValueTypeDestructor _); [|done].
      simpl. by rewrite andb_false_r. }
    simpl.
    destruct Hstorage as [->|(storage' & type' & isEnum' & Hok & ->)]; [done|].
    apply List.Forall_cons; [|done].
    unfold memberViolation. simpl.
    rewrite !elem_of_cons. intros [Heq|[?|[?|[?|[?|Hnil]]]]]; try done.
    + injection Heq as ->. congruence.
    + by apply elem_of_nil in Hnil.
Qed.

Lemma erroneous_member_is_skipped_witness :
  hasError ex_SpanOfMissing = true
  ∧ emits (check (storageChecker (ex_dc ex_F) ex_EscapableConformance Escapable)
             (OfEnumElementDecl (ex_element "a" (Some ex_SpanOfMissing)))
             ex_SpanOfMissing true) false [].
Proof.
  split; [reflexivity|].
  apply (erroneous_member_is_skipped
           (storageChecker (ex_dc ex_F) ex_EscapableConformance Escapable)
           (OfEnumElementDecl (ex_element "a" (Some ex_SpanOfMissing)))
           ex_SpanOfMissing true).
  reflexivity.
Defined.

(** C10.  One call emits at most one contradiction diagnostic, at most one
    destructor violation and at most one storage violation, so at most
    three diagnostics that are not notes. *)
Theorem at_most_one_violation_of_each_kind dc conformance ip :
  assertionsHold dc conformance ip = true ->
  ∃ ds,
    emits (checkInvertibleConformanceCommon dc conformance ip) tt ds
    ∧ length (contradictions ds) ≤ 1
    ∧ length (destructorViolations ds) ≤ 1
    ∧ length (storageViolations ds) ≤ 1
    ∧ length (primaryViolations ds) ≤ 3.
Proof.
  intros Hassert. exists (checkDiagnostics dc conformance ip).
  split; [by apply checkInvertibleConformanceCommon_emits|].
  assert (length (contradictions (checkDiagnostics dc conformance ip)) ≤ 1) as Hc.
  { unfold contradictions. rewrite checkDiagnostics_filter.
    rewrite destructorDiagnostics_filter_other, storageDiagnostics_filter_other
      by done.
    rewrite length_app.
    pose proof (contradictionDiagnostics_length (getSelfNominalTypeDecl dc)
                  conformance ip).
    destruct (_ && _), (isa ClassDecl _); simpl; lia. }
  assert (length (destructorViolations (checkDiagnostics dc conformance ip)) ≤ 1)
    as Hd.
  { unfold destructorViolations. rewrite checkDiagnostics_filter.
    rewrite storageDiagnostics_filter_other by done.
    rewrite andb_false_r, app_nil_r. simpl.
    pose proof (destructorDiagnostics_filter_length copyable_illegal_deinit
                  (getSelfNominalTypeDecl dc) conformance ip ltac:(done)).
    destruct (isa ClassDecl _); simpl; lia. }
  assert (length (storageViolations (checkDiagnostics dc conformance ip)) ≤ 1)
    as Hs.
  { unfold storageViolations. rewrite checkDiagnostics_filter.
    rewrite destructorDiagnostics_filter_other by done.
    rewrite andb_false_r. simpl.
    pose proof (storageDiagnostics_filter_length
                  inverse_type_member_in_conforming_type
                  (storageChecker dc conformance ip) dc (getSelfNominalTypeDecl dc)
                  ltac:(done) ltac:(done)).
    destruct (isa ClassDecl _); simpl; lia. }
  split_and!; try done.
  rewrite primaryViolations_length. lia.
Qed.

Lemma at_most_one_violation_of_each_kind_witness :
  assertionsHold (ex_dc ex_Box) ex_CopyableConformance Copyable = true
  ∧ ∃ ds,
      emits (checkInvertibleConformanceCommon (ex_dc ex_Box)
               ex_CopyableConformance Copyable) tt ds
      ∧ length (contradictions ds) ≤ 1
      ∧ length (destructorViolations ds) ≤ 1
      ∧ length (storageViolations ds) ≤ 1
      ∧ length (primaryViolations ds) ≤ 3.
Proof.
  split; [reflexivity|].
  apply (at_most_one_violation_of_each_kind (ex_dc ex_Box)
           ex_CopyableConformance Copyable).
  reflexivity.
Defined.

(** ** Further properties: the walk, for any visitor *)

Section AnyVisitor.
Context {V S : Type} `{!StorageVisitor V S}.
Variable this : V.
Variable dc : DeclContext.

(** X3.  The walk over stored properties composes: walking [pre ++ post]
    is walking [pre] and, unless that stopped or aborted, walking [post]
    from the state [pre] left.  So a stop or an abort in [pre] is the
    outcome of the whole walk, whatever follows. *)
Theorem visitStoredProperties_app (pre post : list VarDecl) (s : S) :
  visitStoredProperties this dc (pre ++ post) s =
    match visitStoredProperties this dc pre s with
    | Returned true s' => Returned true s'
    | Returned false s' => visitStoredProperties this dc post s'
    | AssertionFailed => AssertionFailed
    end.
Proof.
  revert s. induction pre as [|property pre IH]; intros s; simpl; [done|].
  unfold mbind, Sema_bind.
  destruct (visitProperty this property _ s) as [[|] s'|]; simpl; [done| |done].
  apply IH.
Qed.

Lemma visitElements_app (pre post : list EnumElementDecl) (s : S) :
  visitElements this dc (pre ++ post) s =
    match visitElements this dc pre s with
    | Returned true s' => Returned true s'
    | Returned false s' => visitElements this dc post s'
    | AssertionFailed => AssertionFailed
    end.
Proof.
  revert s. induction pre as [|element pre IH]; intros s; simpl; [done|].
  destruct (getArgumentInterfaceType element) as [type|]; [|apply IH].
  unfold mbind, Sema_bind.
  destruct (visitElement this element _ s) as [[|] s'|]; simpl; [done| |done].
  apply IH.
Qed.

Lemma visitElements_payloads (elements : list EnumElementDecl) (s : S) :
  visitElements this dc
    (filter (λ element, hasAssociatedValues element = true) elements) s
  = visitElements this dc elements s.
Proof.
  revert s. induction elements as [|element elements IH]; intros s; [done|].
  rewrite filter_cons.
  case_decide as Hpayload; unfold hasAssociatedValues in Hpayload; simpl;
    destruct (getArgumentInterfaceType element) as [type|]; try done.
  unfold mbind, Sema_bind.
  destruct (visitElement this element _ s) as [[|] s'|]; simpl; [done| |done].
  apply IH.
Qed.

Lemma visitCases_concat (cases : list EnumCaseDecl) (s : S) :
  visitCases this dc cases s =
    visitElements this dc (concat (map getElements cases)) s.
Proof.
  revert s. induction cases as [|caseDecl cases IH]; intros s; simpl; [done|].
  rewrite visitElements_app. unfold mbind, Sema_bind.
  destruct (visitElements this dc (getElements caseDecl) s) as [[|] s'|];
    simpl; [done| |done].
  apply IH.
Qed.

(** X4.  The walk over the cases of an enum is one walk over the elements
    of all cases that have associated values, in declaration order: a
    stop in one case ends the walk over the later cases too, and an
    element without associated values is never handed to the callback. *)
Theorem visitCases_flatten (cases : list EnumCaseDecl) (s : S) :
  visitCases this dc cases s =
    visitElements this dc
      (filter (λ element, hasAssociatedValues element = true)
         (concat (map getElements cases))) s
  ∧ ∀ pre element post,
      concat (map getElements cases) = pre ++ element :: post ->
      hasAssociatedValues element = false ->
      visitCases this dc cases s = visitElements this dc (pre ++ post) s.
Proof.
  split.
  - by rewrite visitElements_payloads, visitCases_concat.
  - intros pre element post Hsplit Hbare.
    rewrite visitCases_concat, Hsplit, !visitElements_app.
    destruct (visitElements this dc pre s) as [[|] s'|]; [done| |done].
    simpl. unfold hasAssociatedValues in Hbare.
    by destruct (getArgumentInterfaceType element).
Qed.

(** X2.  For a nominal that is neither a struct, a class nor an enum the
    walk calls no callback, leaves the state as it is and returns false;
    its final assertion never fails. *)
Theorem visit_without_storage (nominal : NominalTypeDecl) (s : S) :
  isa StructDecl nominal = false ->
  isa ClassDecl nominal = false ->
  isa EnumDecl nominal = false ->
  visit this dc nominal s = Returned false s.
Proof.
  intros Hstruct Hclass Henum. unfold visit.
  rewrite Hstruct, Hclass, Henum. simpl.
  unfold mbind, Sema_bind, assert_, isa.
  by destruct (nom_kind nominal).
Qed.

Lemma recorded_properties (properties : list VarDecl) (s : S)
    (log : list ValueDecl) :
  (∀ property s0, property ∈ properties ->
     ∃ s1, visitProperty this property (propertyType dc property) s0
           = Returned false s1) ->
  ∃ s', visitStoredProperties {| forwardTo := this |} dc properties (s, log)
        = Returned false (s', log ++ map OfVarDecl properties).
Proof.
  revert s log.
  induction properties as [|property properties IH]; intros s log Hnone; simpl.
  { exists s. unfold mret, Sema_ret. by rewrite app_nil_r. }
  destruct (Hnone property s) as [s1 Hs1]; [apply list_elem_of_here|].
  unfold propertyType in Hs1.
  unfold mbind, Sema_bind, recording. rewrite Hs1.
  destruct (IH s1 (log ++ [OfVarDecl property])) as [s' Hs'].
  { intros p s0 Hin. apply Hnone. by apply list_elem_of_further. }
  exists s'. rewrite Hs'. by rewrite <- app_assoc.
Qed.

Lemma recorded_elements (elements : list EnumElementDecl) (s : S)
    (log : list ValueDecl) :
  (∀ element payload s0,
     element ∈ elements -> getArgumentInterfaceType element = Some payload ->
     ∃ s1, visitElement this element (mapTypeIntoContext dc payload) s0
           = Returned false s1) ->
  ∃ s', visitElements {| forwardTo := this |} dc elements (s, log)
        = Returned false
            (s', log ++ map OfEnumElementDecl
                          (filter (λ element, hasAssociatedValues element = true)
                             elements)).
Proof.
  revert s log.
  induction elements as [|element elements IH]; intros s log Hnone.
  { exists s. simpl. unfold mret, Sema_ret. by rewrite app_nil_r. }
  assert (∀ e payload s0,
            e ∈ elements -> getArgumentInterfaceType e = Some payload ->
            ∃ s1, visitElement this e (mapTypeIntoContext dc payload) s0
                  = Returned false s1) as Hrest.
  { intros e payload s0 Hin. apply Hnone. by apply list_elem_of_further. }
  pose proof (Hnone element) as Hhead.
  rewrite filter_cons.
  case_decide as Hpayload; unfold hasAssociatedValues in Hpayload; simpl;
    destruct (getArgumentInterfaceType element) as [payload|]; try done.
  - destruct (Hhead payload s) as [s1 Hs1]; [apply list_elem_of_here|done|].
    unfold mbind, Sema_bind, recording. rewrite Hs1.
    destruct (IH s1 (log ++ [OfEnumElementDecl element]) Hrest) as [s' Hs'].
    exists s'. rewrite Hs'. by rewrite <- app_assoc.
  - apply IH, Hrest.
Qed.

End AnyVisitor.

(** X5.  When no callback asks to stop, the walk returns false after it
    has handed to the callbacks every stored property of a struct or
    class, or every element with associated values of an enum, once each
    and in declaration order. *)
Theorem visit_examines_every_member {V S : Type} `{!StorageVisitor V S}
    (this : V) (dc : DeclContext) (nominal : NominalTypeDecl) (s : S) :
  (∀ property s0, property ∈ getStoredProperties nominal ->
     ∃ s1, visitProperty this property (propertyType dc property) s0
           = Returned false s1) ->
  (∀ element payload s0,
     element ∈ allElements nominal ->
     getArgumentInterfaceType element = Some payload ->
     ∃ s1, visitElement this element (mapTypeIntoContext dc payload) s0
           = Returned false s1) ->
  ∃ s',
    visit {| forwardTo := this |} dc nominal (s, [])
    = Returned false
        (s',
         if isa StructDecl nominal || isa ClassDecl nominal then
           map OfVarDecl (getStoredProperties nominal)
         else if isa EnumDecl nominal then
           map OfEnumElementDecl
             (filter (λ element, hasAssociatedValues element = true)
                (allElements nominal))
         else []).
Proof.
  intros Hproperties Helements. unfold visit.
  destruct (isa StructDecl nominal || isa ClassDecl nominal) eqn:Hrecord.
  { destruct (recorded_properties this dc (getStoredProperties nominal) s []
                Hproperties) as [s' Hs'].
    by exists s'. }
  destruct (isa EnumDecl nominal) eqn:Henum.
  { destruct (recorded_elements this dc (allElements nominal) s [] Helements)
      as [s' Hs'].
    exists s'. by rewrite visitCases_concat. }
  exists s. apply orb_false_elim in Hrecord as [Hstruct Hclass].
  unfold mbind, Sema_bind, assert_, isa in *.
  by destruct (nom_kind nominal).
Qed.

Lemma visit_without_storage_witness :
  visit (storageChecker (ex_dc ex_Shape) ex_CopyableConformance Copyable)
    (ex_dc ex_Shape) ex_Shape []
  = Returned false [].
Proof.
  apply (visit_without_storage
           (storageChecker (ex_dc ex_Shape) ex_CopyableConformance Copyable)
           (ex_dc ex_Shape) ex_Shape []); reflexivity.
Defined.

Lemma visitCases_flatten_witness :
  visitCases (storageChecker (ex_dc ex_E) ex_EscapableConformance Escapable)
    (ex_dc ex_E) (getAllCases ex_E) []
  = visitElements (storageChecker (ex_dc ex_E) ex_EscapableConformance Escapable)
      (ex_dc ex_E) ([] ++ [ex_element "a" (Some ex_Span)]) [].
Proof.
  apply (proj2 (visitCases_flatten
                  (storageChecker (ex_dc ex_E) ex_EscapableConformance Escapable)
                  (ex_dc ex_E) (getAllCases ex_E) [])
           [] (ex_element "b" None) [ex_element "a" (Some ex_Span)]);
    reflexivity.
Defined.

Lemma visit_examines_every_member_witness :
  ∃ engine,
    visit {| forwardTo :=
               storageChecker (ex_dc ex_Pair) ex_CopyableConformance Copyable |}
      (ex_dc ex_Pair) ex_Pair ([], [])
    = Returned false (engine, [OfVarDecl (ex_var "n" ex_Int)]).
Proof.
  apply (visit_examines_every_member
           (storageChecker (ex_dc ex_Pair) ex_CopyableConformance Copyable)
           (ex_dc ex_Pair) ex_Pair []).
  - intros property s0 Hin. apply list_elem_of_singleton in Hin. subst property.
    eexists. reflexivity.
  - intros element payload s0 Hin. by apply elem_of_nil in Hin.
Defined.

(** ** Further properties: the per-member predicate and the notes *)

(** X6.  In a check for [Copyable], the per-member predicate reports a
    member exactly when the member's resolved type is not in an error
    state and is noncopyable, whether or not the type is [Escapable]; it
    then emits the storage violation for that member, and it emits
    nothing otherwise. *)
Theorem check_Copyable_reports_noncopyable this storage type isEnum :
  IP this = Copyable ->
  ∃ stop ds,
    emits (check this storage type isEnum) stop ds
    ∧ (stop = true ↔ hasError type = false ∧ isNoncopyable type = true)
    ∧ storageViolations ds
      = (if stop then [memberViolation this storage type isEnum] else [])
    ∧ (stop = false -> ds = []).
Proof.
  intros Hip.
  exists (memberFails this storage type isEnum). eexists.
  split; [apply check_emits|].
  rewrite memberFails_eq, Hip.
  destruct (hasError type), (isNoncopyable type); simpl.
  1-2, 4: split_and!; [split; [done|by intros [? ?]]|done|done].
  split_and!; [done| |done].
  unfold storageViolations. rewrite memberDiagnostics_filter by done.
  simpl. by rewrite andb_false_r.
Qed.

Lemma check_Copyable_reports_noncopyable_witness :
  IP (storageChecker (ex_dc ex_Single) ex_CopyableConformance Copyable) = Copyable
  ∧ ∃ stop ds,
      emits (check (storageChecker (ex_dc ex_Single) ex_CopyableConformance
                      Copyable)
               (OfVarDecl (ex_var "x" ex_FileHandle)) ex_FileHandle false)
        stop ds
      ∧ (stop = true ↔
           hasError ex_FileHandle = false ∧ isNoncopyable ex_FileHandle = true)
      ∧ storageViolations ds
        = (if stop
           then [memberViolation
                   (storageChecker (ex_dc ex_Single) ex_CopyableConformance
                      Copyable)
                   (OfVarDecl (ex_var "x" ex_FileHandle)) ex_FileHandle false]
           else [])
      ∧ (stop = false -> ds = []).
Proof.
  split; [reflexivity|].
  apply (check_Copyable_reports_noncopyable
           (storageChecker (ex_dc ex_Single) ex_CopyableConformance Copyable)).
  reflexivity.
Defined.

(** X7.  After the advice, [tryEmitContainmentFixits] emits at most one
    note about the origin of the non-conforming type, without fix-it.  A
    note on a generic parameter is about an archetype of that parameter,
    declared in the module of the enclosing nominal; a note at a location
    is about the nominal of the type and the location is valid.  There is
    no note exactly for an archetype that is not such a generic parameter,
    for a nominal without a valid location and for a type that is
    neither. *)
Theorem containment_notes_placement enclosingNom can type ip :
  ∃ notes,
    emits (tryEmitContainmentFixits enclosingNom can type ip) tt
      ((if can then [adviceNote ip enclosingNom] else []) ++ notes)
    ∧ length notes ≤ 1
    ∧ Forall (λ d,
        diag_fixIts d = []
        ∧ match diag_anchor d with
          | AtGenericTypeParam param =>
              diag_id d = note_inverse_preventing_conformance
              ∧ ty_structure type = ArchetypeType (GenericTypeParamType (Some param))
              ∧ gp_getModuleContext param = getParentModule enclosingNom
          | AtLoc loc =>
              diag_id d = note_inverse_preventing_conformance_explicit
              ∧ isValid loc = true
              ∧ ∃ nominal,
                  ty_structure type = NominalType nominal ∧ nr_getLoc nominal = loc
          | _ => False
          end) notes
    ∧ (notes = [] ↔
         match ty_structure type with
         | ArchetypeType (GenericTypeParamType (Some param)) =>
             gp_getModuleContext param ≠ getParentModule enclosingNom
         | ArchetypeType _ => True
         | NominalType nominal => isValid (nr_getLoc nominal) = false
         | StructuralType => True
         end).
Proof.
  exists (originNotes enclosingNom type ip).
  split; [apply tryEmitContainmentFixits_emits|].
  unfold originNotes, emitted, tryEmitContainmentFixits.
  unfold mbind, Sema_bind; simpl.
  destruct (ty_structure type) as [[[param|]|]|nominal|]; simpl.
  - case_bool_decide as Hmodule; simpl.
    + split_and!; [lia| |done].
      apply List.Forall_cons; [|done]. simpl. eauto.
    + split_and!; [lia|done|done].
  - split_and!; [lia|done|done].
  - split_and!; [lia|done|done].
  - destruct (isValid (nr_getLoc nominal)) eqn:Hvalid; simpl.
    + split_and!; [lia| |done].
      apply List.Forall_cons; [|done]. simpl. eauto 6.
    + split_and!; [lia|done|done].
  - split_and!; [lia|done|done].
Qed.

(** ** Further properties: one call of the checker *)


Lemma find_none_Forall {A} (f : A -> bool) (l : list A) :
  find f l = None ↔ Forall (λ x, f x = false) l.
Proof.
  induction l as [|x l IH]; simpl; [done|].
  rewrite Forall_cons. destruct (f x); [|tauto].
  split; [done|]. by intros [? _].
Qed.

Lemma contradictionDiagnostics_nil nominalDecl conformance ip :
  contradictionDiagnostics nominalDecl conformance ip = [] ↔
    ¬ (ip ∈ inverses nominalDecl ∧ hasUnconditionalConformance conformance = true).
Proof.
  rewrite <- hasExplicitInverse_true. unfold contradictionDiagnostics.
  destruct conformance as [normalConf|proto].
  - destruct (hasExplicitInverse nominalDecl ip),
      (hasUnconditionalConformance (Normal normalConf)); simpl;
      split; try done; try (by intros _ [? ?]).
    intros Hnot. destruct Hnot. done.
  - split; [|done]. by intros _ [_ ?].
Qed.

Lemma contradictionDiagnostics_not_nil nominalDecl conformance ip :
  contradictionDiagnostics nominalDecl conformance ip ≠ [] ↔
    ip ∈ inverses nominalDecl ∧ hasUnconditionalConformance conformance = true.
Proof.
  rewrite contradictionDiagnostics_nil. split; [|tauto].
  intros Hnot. destruct (decide (ip ∈ inverses nominalDecl)); [|tauto].
  destruct (hasUnconditionalConformance conformance); [done|].
  destruct Hnot. by intros [_ ?].
Qed.

Lemma destructorDiagnostics_nil nominalDecl conformance ip :
  destructorDiagnostics nominalDecl conformance ip = [] ↔
    (ip = Copyable -> getValueTypeDestructor nominalDecl = None).
Proof.
  unfold destructorDiagnostics.
  destruct ip; [|done].
  destruct (getValueTypeDestructor nominalDecl); [|done].
  split; [done|]. intros Hnone. by specialize (Hnone eq_refl).
Qed.

Lemma storageDiagnostics_nil this dc nominal :
  isa ClassDecl nominal = false ->
  storageDiagnostics this dc nominal = [] ↔
    (isa StructDecl nominal = true ->
     Forall (λ p, propertyFails this dc p = false) (getStoredProperties nominal))
    ∧ (isa EnumDecl nominal = true ->
       Forall (λ e, elementFails this dc e = false) (allElements nominal)).
Proof.
  intros Hclass. unfold storageDiagnostics. rewrite Hclass, orb_false_r.
  destruct (isa StructDecl nominal) eqn:Hstruct.
  { destruct (isa_StructDecl _ Hstruct) as [-> _].
    unfold propertiesDiagnostics, memberDiagnostics.
    rewrite <- (find_none_Forall (propertyFails this dc)).
    destruct (find (propertyFails this dc) _) as [property|].
    - split; [done|]. intros [Hnone _]. by specialize (Hnone eq_refl).
    - split; [|done]. intros _. by split. }
  destruct (isa EnumDecl nominal); [|done].
  unfold elementsDiagnostics, memberDiagnostics.
  rewrite <- (find_none_Forall (elementFails this dc)).
  destruct (find (elementFails this dc) _) as [element|] eqn:Hfind.
  - apply find_some in Hfind as [_ Hfails]. unfold elementFails in Hfails.
    destruct (getArgumentInterfaceType element); [|done].
    split; [done|]. intros [_ Hnone]. by specialize (Hnone eq_refl).
  - split; [|done]. intros _. by split.
Qed.



(** X8.  A call emits the contradiction diagnostic exactly when the
    nominal is not a class or the [MoveOnlyClasses] feature is on, the
    protocol is among the inverses of the nominal, and the conformance is
    unconditional.  A conditional conformance, or one that is not a normal
    conformance, never gets it, even when the inverse is written. *)
Theorem contradiction_exactly_when dc conformance ip :
  let nominal := getSelfNominalTypeDecl dc in
  assertionsHold dc conformance ip = true ->
  ∃ ds,
    emits (checkInvertibleConformanceCommon dc conformance ip) tt ds
    ∧ (contradictions ds ≠ [] ↔
         (isa ClassDecl nominal = false
          ∨ hasFeature (LangOpts (getASTContext nominal)) MoveOnlyClasses = true)
         ∧ ip ∈ inverses nominal
         ∧ hasUnconditionalConformance conformance = true)
    ∧ (∀ normalConf,
         conformance = Normal normalConf ->
         getConditionalRequirements normalConf ≠ [] ->
         contradictions ds = [])
    ∧ (∀ proto, conformance = NotNormal proto -> contradictions ds = []).
Proof.
  intros nominal Hassert. exists (checkDiagnostics dc conformance ip).
  split; [by apply checkInvertibleConformanceCommon_emits|].
  assert (contradictions (checkDiagnostics dc conformance ip)
          = if negb (isa ClassDecl nominal)
               || hasFeature (LangOpts (getASTContext nominal)) MoveOnlyClasses
            then contradictionDiagnostics nominal conformance ip else [])
    as ->.
  { unfold contradictions. rewrite checkDiagnostics_filter. fold nominal.
    rewrite destructorDiagnostics_filter_other, storageDiagnostics_filter_other
      by done.
    rewrite andb_true_r. by destruct (isa ClassDecl nominal); rewrite !app_nil_r. }
  split_and!.
  - destruct (isa ClassDecl nominal), (hasFeature _ _); simpl.
    2: { split; [done|]. intros [Hgate _]. by destruct Hgate. }
    all: rewrite contradictionDiagnostics_not_nil; tauto.
  - intros normalConf -> Hconditional.
    destruct (negb _ || _); [|done].
    apply contradictionDiagnostics_nil. intros [_ Huncond].
    unfold hasUnconditionalConformance in Huncond. simpl in Huncond.
    by destruct (getConditionalRequirements normalConf).
  - intros proto ->. by destruct (negb _ || _).
Qed.

Lemma contradiction_exactly_when_witness :
  assertionsHold (ex_dc ex_Token) ex_CopyableConformance Copyable = true
  ∧ ∃ ds,
      emits (checkInvertibleConformanceCommon (ex_dc ex_Token)
               ex_CopyableConformance Copyable) tt ds
      ∧ (contradictions ds ≠ [] ↔
           (isa ClassDecl ex_Token = false
            ∨ hasFeature (LangOpts (getASTContext ex_Token)) MoveOnlyClasses = true)
           ∧ Copyable ∈ inverses ex_Token
           ∧ hasUnconditionalConformance ex_CopyableConformance = true)
      ∧ (∀ normalConf,
           ex_CopyableConformance = Normal normalConf ->
           getConditionalRequirements normalConf ≠ [] ->
           contradictions ds = [])
      ∧ (∀ proto, ex_CopyableConformance = NotNormal proto ->
                  contradictions ds = []).
Proof.
  split; [reflexivity|].
  apply (contradiction_exactly_when (ex_dc ex_Token) ex_CopyableConformance
           Copyable).
  reflexivity.
Defined.

(** X9.  For a struct or an enum and either protocol, a call emits no
    storage violation when no member fails the check, and otherwise
    exactly one: for the first failing stored property of a struct, or for
    the first failing element of an enum, tagged as an enum payload.  One
    failing member is enough. *)
Theorem storage_violation_for_first_failing_member dc conformance ip :
  let nominal := getSelfNominalTypeDecl dc in
  let this := storageChecker dc conformance ip in
  assertionsHold dc conformance ip = true ->
  isa ClassDecl nominal = false ->
  ∃ ds,
    emits (checkInvertibleConformanceCommon dc conformance ip) tt ds
    ∧ (isa StructDecl nominal = true ->
       (Forall (λ p, propertyFails this dc p = false) (getStoredProperties nominal) ->
        storageViolations ds = [])
       ∧ (∀ pre first post,
            getStoredProperties nominal = pre ++ first :: post ->
            Forall (λ p, propertyFails this dc p = false) pre ->
            propertyFails this dc first = true ->
            storageViolations ds
            = [mkDiagnostic (AtValueDecl (OfVarDecl first))
                 inverse_type_member_in_conforming_type
                 [ArgType (propertyType dc first); ArgBool false;
                  ArgIdentifier (var_name first); ArgNominal (nom_name nominal);
                  ArgString (getProtocolName (getKnownProtocolKind ip))]]))
    ∧ (isa EnumDecl nominal = true ->
       (Forall (λ e, elementFails this dc e = false) (allElements nominal) ->
        storageViolations ds = [])
       ∧ (∀ pre first payload post,
            allElements nominal = pre ++ first :: post ->
            Forall (λ e, elementFails this dc e = false) pre ->
            getArgumentInterfaceType first = Some payload ->
            elementFails this dc first = true ->
            storageViolations ds
            = [mkDiagnostic (AtValueDecl (OfEnumElementDecl first))
                 inverse_type_member_in_conforming_type
                 [ArgType (mapTypeIntoContext dc payload); ArgBool true;
                  ArgIdentifier (elt_name first); ArgNominal (nom_name nominal);
                  ArgString (getProtocolName (getKnownProtocolKind ip))]])).
Proof.
  intros nominal this Hassert Hclass.
  exists (checkDiagnostics dc conformance ip).
  split; [by apply checkInvertibleConformanceCommon_emits|].
  rewrite checkDiagnostics_storageViolations by done.
  fold nominal this. unfold storageDiagnostics. rewrite Hclass, orb_false_r.
  split.
  - intros Hstruct. rewrite Hstruct. unfold propertiesDiagnostics. split.
    + intros Hnone. apply find_none_Forall in Hnone. by rewrite Hnone.
    + intros pre first post -> Hpre Hfirst.
      rewrite (find_at_first _ _ _ _ Hpre Hfirst).
      unfold storageViolations. rewrite memberDiagnostics_filter by done.
      simpl. by rewrite andb_false_r.
  - intros Henum. destruct (isa_EnumDecl _ Henum) as [-> _]. rewrite Henum.
    unfold elementsDiagnostics. split.
    + intros Hnone. apply find_none_Forall in Hnone. by rewrite Hnone.
    + intros pre first payload post -> Hpre Hpayload Hfirst.
      rewrite (find_at_first _ _ _ _ Hpre Hfirst), Hpayload.
      unfold storageViolations. rewrite memberDiagnostics_filter by done.
      simpl. by rewrite andb_false_r.
Qed.

Lemma storage_violation_for_first_failing_member_witness :
  ∃ ds,
    emits (checkInvertibleConformanceCommon (ex_dc ex_Single)
             ex_CopyableConformance Copyable) tt ds
    ∧ storageViolations ds
      = [mkDiagnostic (AtValueDecl (OfVarDecl (ex_var "x" ex_FileHandle)))
           inverse_type_member_in_conforming_type
           [ArgType ex_FileHandle; ArgBool false; ArgIdentifier "x";
            ArgNominal "Single"; ArgString "Copyable"]].
Proof.
  destruct (storage_violation_for_first_failing_member (ex_dc ex_Single)
              ex_CopyableConformance Copyable eq_refl eq_refl)
    as (ds & Hemits & Hstruct & _).
  exists ds. split; [exact Hemits|].
  apply (proj2 (Hstruct eq_refl) [] (ex_var "x" ex_FileHandle) []).
  - reflexivity.
  - apply List.Forall_nil.
  - reflexivity.
Defined.

(** X10.  A call is silent exactly when there is no contradiction to
    report and either the nominal is a class or, for a struct or an enum,
    there is no deinit in a check for [Copyable] and no stored property or
    enum element fails the check. *)
Theorem call_is_silent_exactly_when dc conformance ip :
  let nominal := getSelfNominalTypeDecl dc in
  let this := storageChecker dc conformance ip in
  assertionsHold dc conformance ip = true ->
  ∃ ds,
    emits (checkInvertibleConformanceCommon dc conformance ip) tt ds
    ∧ (ds = [] ↔
         ¬ ((isa ClassDecl nominal = false
             ∨ hasFeature (LangOpts (getASTContext nominal)) MoveOnlyClasses = true)
            ∧ ip ∈ inverses nominal
            ∧ hasUnconditionalConformance conformance = true)
         ∧ (isa ClassDecl nominal = true
            ∨ ((ip = Copyable -> getValueTypeDestructor nominal = None)
               ∧ (isa StructDecl nominal = true ->
                  Forall (λ p, propertyFails this dc p = false)
                    (getStoredProperties nominal))
               ∧ (isa EnumDecl nominal = true ->
                  Forall (λ e, elementFails this dc e = false)
                    (allElements nominal))))).
Proof.
  intros nominal this Hassert. exists (checkDiagnostics dc conformance ip).
  split; [by apply checkInvertibleConformanceCommon_emits|].
  unfold checkDiagnostics. fold nominal this.
  rewrite app_nil.
  pose proof (contradictionDiagnostics_not_nil nominal conformance ip) as Hcontra.
  pose proof (contradictionDiagnostics_nil nominal conformance ip) as Hnil.
  destruct (isa ClassDecl nominal) eqn:Hclass; simpl.
  - destruct (hasFeature _ _); simpl.
    + rewrite Hnil. split; [intros [Hnot _]|intros [Hnot _]].
      * split; [tauto|by left].
      * split; [tauto|done].
    + split; [intros _|done]. split; [|by left].
      intros [[?|?] _]; done.
  - rewrite app_nil, Hnil, destructorDiagnostics_nil.
    rewrite (storageDiagnostics_nil this dc nominal Hclass).
    split.
    + intros (Hnot & Hdeinit & Hstorage). split; [tauto|]. right. tauto.
    + intros (Hnot & [?|Hrest]); [done|]. split; [tauto|]. tauto.
Qed.

Lemma call_is_silent_exactly_when_witness :
  assertionsHold (ex_dc ex_Pair) ex_CopyableConformance Copyable = true
  ∧ ∃ ds,
      emits (checkInvertibleConformanceCommon (ex_dc ex_Pair)
               ex_CopyableConformance Copyable) tt ds
      ∧ (ds = [] ↔
           ¬ ((isa ClassDecl ex_Pair = false
               ∨ hasFeature (LangOpts (getASTContext ex_Pair)) MoveOnlyClasses
                 = true)
              ∧ Copyable ∈ inverses ex_Pair
              ∧ hasUnconditionalConformance ex_CopyableConformance = true)
           ∧ (isa ClassDecl ex_Pair = true
              ∨ ((Copyable = Copyable -> getValueTypeDestructor ex_Pair = None)
                 ∧ (isa StructDecl ex_Pair = true ->
                    Forall (λ p, propertyFails
                                   (storageChecker (ex_dc ex_Pair)
                                      ex_CopyableConformance Copyable)
                                   (ex_dc ex_Pair) p = false)
                      (getStoredProperties ex_Pair))
                 ∧ (isa EnumDecl ex_Pair = true ->
                    Forall (λ e, elementFails
                                   (storageChecker (ex_dc ex_Pair)
                                      ex_CopyableConformance Copyable)
                                   (ex_dc ex_Pair) e = false)
                      (allElements ex_Pair))))).
Proof.
  split; [reflexivity|].
  apply (call_is_silent_exactly_when (ex_dc ex_Pair) ex_CopyableConformance
           Copyable).
  reflexivity.
Defined.

Lemma originNotes_cases enclosingNom type ip :
  originNotes enclosingNom type ip = []
  ∨ ∃ note,
      originNotes enclosingNom type ip = [note]
      ∧ (diag_id note = note_inverse_preventing_conformance
         ∨ diag_id note = note_inverse_preventing_conformance_explicit).
Proof.
  unfold originNotes, emitted, tryEmitContainmentFixits.
  unfold mbind, Sema_bind; simpl.
  destruct (ty_structure type) as [[[param|]|]|nominal|]; simpl;
    repeat case_bool_decide; try destruct (isValid _); simpl; eauto.
Qed.

Lemma adviceNote_isNote ip nominal : isNote (adviceNote ip nominal) = true.
Proof. unfold isNote. by rewrite adviceNote_id. Qed.

(** The diagnostics of a call, rule by rule: the contradiction, which
    excludes the advice; the destructor violation and its advice; the
    storage violation, its advice and at most one note on the origin. *)
Lemma checkDiagnostics_parts dc conformance ip :
  let nominal := getSelfNominalTypeDecl dc in
  let advice :=
    if canAddInverse nominal conformance ip then [adviceNote ip nominal] else [] in
  ∃ contradiction destructor storage,
    checkDiagnostics dc conformance ip = contradiction ++ destructor ++ storage
    ∧ (contradiction = []
       ∨ ∃ normalConf,
           contradiction = [contradictionViolation nominal normalConf ip]
           ∧ advice = [])
    ∧ (destructor = []
       ∨ ∃ deinit, destructor = destructorViolation nominal deinit :: advice)
    ∧ (storage = []
       ∨ ∃ member type isEnum origin,
           storage = memberViolation (storageChecker dc conformance ip)
                       member type isEnum :: advice ++ origin
           ∧ (origin = []
              ∨ ∃ note,
                  origin = [note]
                  ∧ (diag_id note = note_inverse_preventing_conformance
                     ∨ diag_id note
                       = note_inverse_preventing_conformance_explicit))).
Proof.
  intros nominal advice. unfold checkDiagnostics. fold nominal.
  exists (if negb (isa ClassDecl nominal)
             || hasFeature (LangOpts (getASTContext nominal)) MoveOnlyClasses
          then contradictionDiagnostics nominal conformance ip else []),
         (if isa ClassDecl nominal then []
          else destructorDiagnostics nominal conformance ip),
         (if isa ClassDecl nominal then []
          else storageDiagnostics (storageChecker dc conformance ip) dc nominal).
  split_and!.
  - by destruct (isa ClassDecl nominal).
  - destruct (negb _ || _); [|by left].
    unfold contradictionDiagnostics.
    destruct conformance as [normalConf|proto]; [|by left].
    destruct (hasExplicitInverse nominal ip) eqn:Hinv; simpl; [|by left].
    destruct (hasUnconditionalConformance (Normal normalConf)) eqn:Hunc;
      [|by left].
    right. exists normalConf. split; [done|].
    unfold advice, canAddInverse. by rewrite Hinv.
  - destruct (isa ClassDecl nominal); [by left|].
    unfold destructorDiagnostics. destruct ip; [|by left].
    destruct (getValueTypeDestructor nominal) as [deinit|]; [|by left].
    right. by exists deinit.
  - destruct (isa ClassDecl nominal); [by left|].
    destruct (storageDiagnostics_cases (storageChecker dc conformance ip) dc
                nominal) as [->|(member & type & isEnum & _ & ->)]; [by left|].
    right. exists member, type, isEnum, (originNotes nominal type ip).
    split; [done|]. apply originNotes_cases.
Qed.

(** X11.  One call emits at most five diagnostics, and at most four when
    one of them is the contradiction.  It suggests the inverse at most
    twice, each time with the same note on the nominal. *)
Theorem call_emits_at_most_five dc conformance ip :
  let nominal := getSelfNominalTypeDecl dc in
  assertionsHold dc conformance ip = true ->
  ∃ ds,
    emits (checkInvertibleConformanceCommon dc conformance ip) tt ds
    ∧ length ds ≤ 5
    ∧ (contradictions ds ≠ [] -> length ds ≤ 4)
    ∧ length (inverseAdvice ds) ≤ 2
    ∧ Forall (λ d, d = adviceNote ip nominal) (inverseAdvice ds).
Proof.
  intros nominal Hassert. exists (checkDiagnostics dc conformance ip).
  split; [by apply checkInvertibleConformanceCommon_emits|].
  destruct (checkDiagnostics_parts dc conformance ip)
    as (contradiction & destructor & storage & -> & Hc & Hd & Hs).
  fold nominal in Hc, Hd, Hs.
  unfold contradictions, inverseAdvice.
  destruct Hc as [->|(normalConf & -> & Hadvice)],
           Hd as [->|(deinit & ->)],
           Hs as [->|(member & type & isEnum & origin & -> & Horigin)].
  all: try destruct Horigin as [->|(note & -> & [Hnote|Hnote])].
  all: try rewrite Hadvice.
  all: destruct (canAddInverse nominal conformance ip); try done.
  all: rewrite ?app_nil_r; simpl.
  all: rewrite ?filter_cons, ?filter_nil; simpl.
  all: pose proof (adviceNote_id ip nominal) as Hadv.
  all: repeat case_decide; try congruence.
  all: simpl; split_and!; try done; try lia.
  all: repeat apply List.Forall_cons; done.
Qed.

Lemma call_emits_at_most_five_witness :
  assertionsHold (ex_dc ex_Vault) ex_ConditionalCopyable Copyable = true
  ∧ ∃ ds,
      emits (checkInvertibleConformanceCommon (ex_dc ex_Vault)
               ex_ConditionalCopyable Copyable) tt ds
      ∧ length ds ≤ 5
      ∧ (contradictions ds ≠ [] -> length ds ≤ 4)
      ∧ length (inverseAdvice ds) ≤ 2
      ∧ Forall (λ d, d = adviceNote Copyable ex_Vault) (inverseAdvice ds).
Proof.
  split; [reflexivity|].
  apply (call_emits_at_most_five (ex_dc ex_Vault) ex_ConditionalCopyable
           Copyable).
  reflexivity.
Defined.

(** X12.  The violations of a call come in the order of the rules: the
    contradiction first, then the destructor violation, then the storage
    violation, each at most once. *)
Theorem violations_come_in_rule_order dc conformance ip :
  assertionsHold dc conformance ip = true ->
  ∃ ds,
    emits (checkInvertibleConformanceCommon dc conformance ip) tt ds
    ∧ sublist (map diag_id (primaryViolations ds))
        [inverse_but_also_conforms; copyable_illegal_deinit;
         inverse_type_member_in_conforming_type].
Proof.
  intros Hassert. exists (checkDiagnostics dc conformance ip).
  split; [by apply checkInvertibleConformanceCommon_emits|].
  destruct (checkDiagnostics_parts dc conformance ip)
    as (contradiction & destructor & storage & -> & Hc & Hd & Hs).
  unfold primaryViolations.
  pose proof (adviceNote_isNote ip (getSelfNominalTypeDecl dc)) as Hadv.
  destruct Hc as [->|(normalConf & -> & Hadvice)],
           Hd as [->|(deinit & ->)],
           Hs as [->|(member & type & isEnum & origin & -> & Horigin)].
  all: try destruct Horigin as [->|(note & -> & [Hnote|Hnote])].
  all: try rewrite Hadvice.
  all: destruct (canAddInverse (getSelfNominalTypeDecl dc) conformance ip);
    try done.
  all: rewrite ?app_nil_r; simpl.
  all: rewrite ?filter_cons, ?filter_nil; simpl.
  all: repeat case_decide; try congruence.
  all: try (match goal with
            | H : isNote ?n = false, Hn : diag_id ?n = _ |- _ =>
                unfold isNote in H; rewrite Hn in H; done
            end).
  all: simpl;
    repeat first [apply sublist_nil | apply sublist_skip | apply sublist_cons].
Qed.

Lemma violations_come_in_rule_order_witness :
  assertionsHold (ex_dc ex_Vault) ex_ConditionalCopyable Copyable = true
  ∧ ∃ ds,
      emits (checkInvertibleConformanceCommon (ex_dc ex_Vault)
               ex_ConditionalCopyable Copyable) tt ds
      ∧ sublist (map diag_id (primaryViolations ds))
          [inverse_but_also_conforms; copyable_illegal_deinit;
           inverse_type_member_in_conforming_type].
Proof.
  split; [reflexivity|].
  apply (violations_come_in_rule_order (ex_dc ex_Vault) ex_ConditionalCopyable
           Copyable).
  reflexivity.
Defined.

(** X13.  Notes only follow violations: the first diagnostic of a call is
    never a note, a call without destructor and storage violation emits
    no note at all, and no call emits more than three notes. *)
Theorem notes_only_after_a_violation dc conformance ip :
  assertionsHold dc conformance ip = true ->
  ∃ ds,
    emits (checkInvertibleConformanceCommon dc conformance ip) tt ds
    ∧ (∀ d, head ds = Some d -> isNote d = false)
    ∧ (destructorViolations ds = [] -> storageViolations ds = [] ->
       Forall (λ d, isNote d = false) ds)
    ∧ length (filter (λ d, isNote d = true) ds) ≤ 3.
Proof.
  intros Hassert. exists (checkDiagnostics dc conformance ip).
  split; [by apply checkInvertibleConformanceCommon_emits|].
  destruct (checkDiagnostics_parts dc conformance ip)
    as (contradiction & destructor & storage & -> & Hc & Hd & Hs).
  unfold destructorViolations, storageViolations.
  pose proof (adviceNote_isNote ip (getSelfNominalTypeDecl dc)) as Hadv.
  destruct Hc as [->|(normalConf & -> & Hadvice)],
           Hd as [->|(deinit & ->)],
           Hs as [->|(member & type & isEnum & origin & -> & Horigin)].
  all: try destruct Horigin as [->|(note & -> & [Hnote|Hnote])].
  all: try rewrite Hadvice.
  all: destruct (canAddInverse (getSelfNominalTypeDecl dc) conformance ip);
    try done.
  all: rewrite ?app_nil_r; simpl.
  all: rewrite ?filter_cons, ?filter_nil; simpl.
  all: repeat case_decide; try congruence.
  all: try (match goal with
            | H : isNote ?n ≠ true, Hn : diag_id ?n = _ |- _ =>
                unfold isNote in H; rewrite Hn in H; done
            end).
  all: simpl; split_and!; try done; try lia.
  all: try (by intros d [= <-]).
  all: intros _ _; repeat apply List.Forall_cons; done.
Qed.

Lemma notes_only_after_a_violation_witness :
  assertionsHold (ex_dc ex_Vault) ex_ConditionalCopyable Copyable = true
  ∧ ∃ ds,
      emits (checkInvertibleConformanceCommon (ex_dc ex_Vault)
               ex_ConditionalCopyable Copyable) tt ds
      ∧ (∀ d, head ds = Some d -> isNote d = false)
      ∧ (destructorViolations ds = [] -> storageViolations ds = [] ->
         Forall (λ d, isNote d = false) ds)
      ∧ length (filter (λ d, isNote d = true) ds) ≤ 3.
Proof.
  split; [reflexivity|].
  apply (notes_only_after_a_violation (ex_dc ex_Vault) ex_ConditionalCopyable
           Copyable).
  reflexivity.
Defined.
